(** * Framing protocol of the ESP32-S3 audio serial tool

    A shallow embedding of [tools/audio_tool.py]: the frame codec
    ([calc_checksum], [send_frame]), the stream parser ([parse_frame]),
    the receive loop ([rx_loop], [handle_frame]) and the record / play
    operations, followed by the properties of the protocol.

    Wire format:  AA 55 | CMD | LEN_L LEN_H | DATA... | XOR            *)

From Stdlib Require Import Strings.Byte Strings.String.
From Stdlib Require Import List Arith NArith ZArith Lia ZifyNat ZifyN Bool Permutation.
Import ListNotations.
Local Open Scope nat_scope.
Local Open Scope list_scope.

(** ** Python values

    A [bytes] / [bytearray] object is a list of bytes.  An element read out
    of it (by indexing or iteration) is an integer, here an [N]; sizes and
    indices are [nat].  A call that can raise returns a [result]. *)

Definition bytes := list byte.

Inductive exn : Type :=
| IndexError
| StructError
| ValueError
| OverflowError
| ZeroDivisionError.

Inductive result (A : Type) : Type :=
| Ok (a : A)
| Raise (e : exn).

Arguments Ok {A} a.
Arguments Raise {A} e.

Definition bind {A B : Type} (m : result A) (k : A -> result B) : result B :=
  match m with
  | Ok a => k a
  | Raise e => Raise e
  end.

Notation "x <- m ;; k" := (bind m (fun x => k))
  (at level 61, m at next level, right associativity).

Module Py.

(** [b[i:j]] for non-negative [i], [j]. *)
Definition slice (b : bytes) (i j : nat) : bytes := firstn (j - i) (skipn i b).

(** [b[i:]]. *)
Definition slice_from (b : bytes) (i : nat) : bytes := skipn i b.

(** [b[-1:]]. *)
Definition slice_last (b : bytes) : bytes := skipn (length b - 1) b.

(** [b[i]]: the integer value of the byte, [IndexError] out of range. *)
Definition index (b : bytes) (i : nat) : result N :=
  match nth_error b i with
  | Some x => Ok (Byte.to_N x)
  | None => Raise IndexError
  end.

(** [bytes([n])]: [ValueError] unless [0 <= n < 256]. *)
Definition bytes1 (n : N) : result bytes :=
  match Byte.of_N n with
  | Some x => Ok [x]
  | None => Raise ValueError
  end.

Fixpoint startswith (b sub : bytes) : bool :=
  match sub, b with
  | [], _ => true
  | _ :: _, [] => false
  | s :: sub', x :: b' => Byte.eqb x s && startswith b' sub'
  end.

(** [b.find(sub)]: the lowest index at which [sub] occurs, [None] for
    Python's [-1]. *)
Fixpoint find_from (i : nat) (b sub : bytes) : option nat :=
  if startswith b sub then Some i
  else match b with
       | [] => None
       | _ :: b' => find_from (S i) b' sub
       end.

Definition find (b sub : bytes) : option nat := find_from 0 b sub.

(** [range(0, n, step)] for a positive [step]. *)
Definition range_step (n step : nat) : list nat :=
  map (fun k => k * step) (seq 0 ((n + step - 1) / step)).

End Py.

(** [struct.pack] / [struct.unpack] for the two formats the tool uses. *)
Module Struct.

(** Format [B]: one unsigned byte. *)
Definition pack_B (n : N) : result bytes :=
  match Byte.of_N n with
  | Some x => Ok [x]
  | None => Raise StructError
  end.

(** Format [<H]: unsigned 16-bit, little-endian. *)
Definition pack_H (n : nat) : result bytes :=
  if n <=? 255 + 256 * 255 then
    match Byte.of_nat (n mod 256), Byte.of_nat (n / 256) with
    | Some lo, Some hi => Ok [lo; hi]
    | _, _ => Raise StructError
    end
  else Raise StructError.

(** Format [2s]: exactly two bytes, truncated or zero-padded. *)
Definition pack_2s (s : bytes) : bytes := firstn 2 (s ++ [x00; x00]).

(** [struct.pack('<2sBH', s, b, h)]. *)
Definition pack_2sBH (s : bytes) (b : N) (h : nat) : result bytes :=
  pb <- pack_B b ;;
  ph <- pack_H h ;;
  Ok (pack_2s s ++ pb ++ ph).

(** [struct.unpack('<H', b)[0]]. *)
Definition unpack_H (b : bytes) : result nat :=
  match b with
  | [lo; hi] => Ok (Byte.to_nat lo + 256 * Byte.to_nat hi)
  | _ => Raise StructError
  end.

End Struct.

(** ** Constants of the tool *)

Definition CMD_START_RECORD : N := 1.
Definition CMD_STOP_RECORD : N := 2.
Definition CMD_AUDIO_DATA : N := 3.
Definition CMD_START_PLAY : N := 4.
Definition CMD_STOP_PLAY : N := 5.
Definition CMD_HANDSHAKE : N := 6.
Definition CMD_ACK : N := 7.
Definition CMD_SET_FORMAT : N := 8.

Definition AUDIO_FORMAT_PCM : N := 0.
Definition AUDIO_FORMAT_MP3 : N := 1.

Definition SAMPLE_RATE : N := 8000.
Definition BITS_PER_SAMPLE : N := 16.
Definition CHANNELS : N := 1.

Definition FRAME_HEADER : bytes := [xaa; x55].

(** ** Frame codec *)

(** [calc_checksum]: the loop [checksum = 0; for b in data: checksum ^= b]. *)
Definition calc_checksum (data : bytes) : N :=
  fold_left (fun checksum b => N.lxor checksum (Byte.to_N b)) data 0%N.

(** The bytes [send_frame] builds before writing them (lines 112-115). *)
Definition build_frame (cmd : N) (data : bytes) : result bytes :=
  let length_ := length data in
  header <- Struct.pack_2sBH FRAME_HEADER cmd length_ ;;
  let checksum := calc_checksum (Py.slice_from header 2 ++ data) in
  tail <- Py.bytes1 checksum ;;
  Ok (header ++ data ++ tail).

(** ** Stream parser *)

Definition frame : Type := (N * bytes)%type.

(** Console lines; each constructor stands for one [print] of the tool. *)
Inductive message : Type :=
| MsgChecksumError (expected received : N)   (* checksum error: expected .., got .. *)
| MsgRxError                                 (* receive error *)
| MsgRxProgress (total : nat)                (* audio data received: n bytes *)
| MsgAck (cmd : N)                           (* acknowledgment of command .. *)
| MsgUnknownCommand (cmd : N)                (* unknown command .. *)
| MsgHandshake                               (* sending handshake *)
| MsgRecordStart (duration : Z)              (* recording for .. seconds *)
| MsgRecordInterrupted                       (* recording interrupted *)
| MsgRecordStop                              (* stopping the recording *)
| MsgNoAudioData                             (* no audio data received *)
| MsgSaved (filename : string)               (* saved: .. *)
| MsgSampleRate (hz : N)
| MsgBits (bits : N)
| MsgChannels (n : N)
| MsgSize (n : nat)
| MsgDuration (size : nat) (bytes_per_second : N)  (* size / bytes_per_second seconds *)
| MsgPlayFile (filename : string)
| MsgFormat (mp3 : bool)
| MsgSetFormat (mp3 : bool)
| MsgSending
| MsgProgress (chunk total : nat)
| MsgSendDone
| MsgListen                                  (* banner of the listen mode *)
| MsgUserInterrupt.

(** [parse_frame]: the pair [(result, remaining_buffer)], the first
    component [None] when no frame is reported, together with the lines the
    call prints. *)
Definition parse_frame (buffer : bytes)
  : result (option frame * bytes * list message) :=
  match Py.find buffer FRAME_HEADER with
  | None =>
      Ok (None, match buffer with [] => [] | _ :: _ => Py.slice_last buffer end, [])
  | Some idx =>
      let buffer := Py.slice_from buffer idx in
      if length buffer <? 6 then Ok (None, buffer, [])
      else
        cmd <- Py.index buffer 2 ;;
        length_ <- Struct.unpack_H (Py.slice buffer 3 5) ;;
        let frame_len := 5 + length_ + 1 in
        if length buffer <? frame_len then Ok (None, buffer, [])
        else
          let data := Py.slice buffer 5 (5 + length_) in
          checksum <- Py.index buffer (5 + length_) ;;
          let calc := calc_checksum (Py.slice buffer 2 (5 + length_)) in
          if negb (N.eqb checksum calc)
          then Ok (None, Py.slice_from buffer 2, [MsgChecksumError calc checksum])
          else Ok (Some (cmd, data), Py.slice_from buffer frame_len, [])
  end.

(** ** The tool object

    [serial] is [None] until [connect] succeeds; afterwards it holds the
    arguments of the [write] calls made so far, oldest first.  What the tool
    does to the outside world besides writing to the port (console lines,
    [time.sleep], the WAV file it writes) is collected in [effects]. *)

Inductive event : Type :=
| Print (m : message)
| Sleep (milliseconds : N)
| WavWrite (filename : string) (nchannels sampwidth framerate : N) (frames : bytes).

Record tool : Type := mkTool {
  serial : option (list bytes);
  running : bool;
  audio_data : bytes;
  effects : list event
}.

Definition set_serial (self : tool) (s : option (list bytes)) : tool :=
  mkTool s (running self) (audio_data self) (effects self).

Definition set_running (self : tool) (r : bool) : tool :=
  mkTool (serial self) r (audio_data self) (effects self).

Definition set_audio_data (self : tool) (a : bytes) : tool :=
  mkTool (serial self) (running self) a (effects self).

Definition emit (self : tool) (es : list event) : tool :=
  mkTool (serial self) (running self) (audio_data self) (effects self ++ es).

(** [send_frame]: nothing is sent on a closed port; the write itself is
    taken to succeed. *)
Definition send_frame (self : tool) (cmd : N) (data : bytes) : result (bool * tool) :=
  match serial self with
  | None => Ok (false, self)
  | Some written =>
      frame <- build_frame cmd data ;;
      Ok (true, set_serial self (Some (written ++ [frame])))
  end.

(** [handle_frame] *)
Definition handle_frame (self : tool) (cmd : N) (data : bytes) : tool :=
  if N.eqb cmd CMD_AUDIO_DATA then
    let self := set_audio_data self (audio_data self ++ data) in
    emit self [Print (MsgRxProgress (length (audio_data self)))]
  else if N.eqb cmd CMD_ACK then
    match data with
    | x :: _ => emit self [Print (MsgAck (Byte.to_N x))]
    | [] => self
    end
  else emit self [Print (MsgUnknownCommand cmd)].

(** ** Receive loop

    [rx_loop] runs on its own thread.  Its input is what the successive
    [self.serial.read(1024)] calls returned while the [running] flag was
    still seen set: bytes (none on a timeout), or an exception, with the
    value of the flag that the [except] clause then reads.  The list ends
    where the loop sees the flag cleared.

    The loop is written once over the object that receives the frames, so
    that the frames handed to [handle_frame] can be observed. *)

Inductive read_outcome : Type :=
| ReadData (data : bytes)
| ReadFail (still_running : bool).

Section Receive.

Variable T : Type.
Variable handle : T -> N -> bytes -> T.
Variable say : T -> list message -> T.

(** The inner [while True] loop; [None] when [fuel] iterations did not
    reach its [break].  The second component is the buffer left, or the
    exception that left the loop. *)
Fixpoint drain_with (fuel : nat) (self : T) (buffer : bytes)
  : option (T * result bytes) :=
  match fuel with
  | O => None
  | S fuel' =>
      match parse_frame buffer with
      | Raise e => Some (self, Raise e)
      | Ok (res, buffer', out) =>
          let self := say self out in
          match res with
          | None => Some (self, Ok buffer')
          | Some (cmd, frame_data) =>
              drain_with fuel' (handle self cmd frame_data) buffer'
          end
      end
  end.

(** The outer [while self.running] loop.  The inner loop is given
    [len(buffer)/6 + 1] iterations, which it never exceeds
    ([drain_with_terminates]). *)
Fixpoint rx_loop_with (self : T) (buffer : bytes) (reads : list read_outcome)
  : option T :=
  match reads with
  | [] => Some self
  | ReadFail still_running :: _ =>
      Some (if still_running then say self [MsgRxError] else self)
  | ReadData [] :: reads' => rx_loop_with self buffer reads'
  | ReadData data :: reads' =>
      let buffer := buffer ++ data in
      match drain_with (length buffer / 6 + 1) self buffer with
      | None => None
      | Some (self, Ok buffer) => rx_loop_with self buffer reads'
      | Some (self, Raise _) => Some (say self [MsgRxError])
        (* [except Exception]; not reached, [parse_frame] does not raise *)
      end
  end.

End Receive.

Arguments drain_with {T} handle say fuel self buffer.
Arguments rx_loop_with {T} handle say self buffer reads.

Definition say_tool (self : tool) (out : list message) : tool :=
  emit self (map Print out).

Definition drain (fuel : nat) (self : tool) (buffer : bytes) :=
  drain_with handle_frame say_tool fuel self buffer.

Definition rx_loop (self : tool) (reads : list read_outcome) : option tool :=
  rx_loop_with handle_frame say_tool self [] reads.

(** The receiver that only records the frames handed to it. *)
Definition log_frame (log : list frame) (cmd : N) (data : bytes) : list frame :=
  log ++ [(cmd, data)].

Definition log_say (log : list frame) (_ : list message) : list frame := log.

(** The frames [rx_loop] hands to [handle_frame], in order. *)
Definition rx_dispatched (reads : list read_outcome) : option (list frame) :=
  rx_loop_with log_frame log_say [] [] reads.

(** ** Operations

    An operation starts the receive thread, talks to the device and joins
    the thread.  The thread only touches the accumulator and the console, so
    its whole run is placed at the [join]; [reads] is the input of that run.
    An operation yields [None] only if the receive loop ran out of fuel. *)

Definition run (A : Type) : Type := option (result A).

Definition run_bind {A B : Type} (m : run A) (k : A -> run B) : run B :=
  match m with
  | None => None
  | Some (Raise e) => Some (Raise e)
  | Some (Ok a) => k a
  end.

Notation "x <~ m ;; k" := (run_bind m (fun x => k))
  (at level 61, m at next level, right associativity).

Definition ret {A : Type} (a : A) : run A := Some (Ok a).
Definition call {A : Type} (m : result A) : run A := Some m.
Definition join {A : Type} (m : option A) : run A := option_map Ok m.

(** [save_wav]: the file is written with the fixed audio parameters. *)
Definition save_wav (self : tool) (filename : string) : tool :=
  let size := length (audio_data self) in
  emit self
    [ WavWrite filename CHANNELS (BITS_PER_SAMPLE / 8)%N SAMPLE_RATE (audio_data self);
      Print (MsgSaved filename);
      Print (MsgSampleRate SAMPLE_RATE);
      Print (MsgBits BITS_PER_SAMPLE);
      Print (MsgChannels CHANNELS);
      Print (MsgSize size);
      Print (MsgDuration size (SAMPLE_RATE * CHANNELS * BITS_PER_SAMPLE / 8)%N) ].

(** The end of [start_record] and of [listen_record]:
    [if self.audio_data: self.save_wav(output_file) else: print(...)]. *)
Definition save_or_report (self : tool) (output_file : string) : tool :=
  match audio_data self with
  | _ :: _ => save_wav self output_file
  | [] => emit self [Print MsgNoAudioData]
  end.

(** [handshake] *)
Definition handshake (self : tool) : result tool :=
  let self := emit self [Print MsgHandshake] in
  sent <- send_frame self CMD_HANDSHAKE [] ;;
  Ok (emit (snd sent) [Sleep 500]).

(** [time.sleep(seconds)] for an integer argument, giving the milliseconds
    asked for.  The runtime first converts the argument to its clock type,
    [OverflowError] beyond [limit] seconds either way, and then refuses a
    negative one with [ValueError].  [limit] is a constant of the Python
    runtime, not of the tool. *)
Definition time_sleep (limit seconds : Z) : result N :=
  if (limit <? Z.abs seconds)%Z then Raise OverflowError
  else if (seconds <? 0)%Z then Raise ValueError
  else Ok (Z.to_N (seconds * 1000)).

(** How an operation ends: it returns, or an exception leaves it; either
    way with the tool as it is at that moment. *)
Inductive ended : Type :=
| Returned (self : tool)
| Raised (e : exn) (self : tool).


(** [start_record]; [duration] is the integer given on the command line.
    Only [KeyboardInterrupt] is caught around [time.sleep(duration)]:
    [interrupted] tells whether one cut the wait short, and an exception of
    [time.sleep] itself leaves the operation, after the start frame, with the
    flag set and the receive thread not joined (what that thread does from
    then on is not part of the outcome). *)
Definition start_record (limit : Z) (self : tool) (output_file : string)
    (duration : Z) (interrupted : bool) (reads : list read_outcome)
  : option ended :=
  let self := set_audio_data self [] in
  let self := set_running self true in
  let self := emit self [Print (MsgRecordStart duration)] in
  match send_frame self CMD_START_RECORD [] with
  | Raise e => Some (Raised e self)
  | Ok (_, self) =>
      match time_sleep limit duration with
      | Raise e => Some (Raised e self)
      | Ok ms =>
          let self := emit self [Sleep ms] in
          let self :=
            if interrupted then emit self [Print MsgRecordInterrupted] else self in
          let self := emit self [Print MsgRecordStop] in
          match send_frame self CMD_STOP_RECORD [] with
          | Raise e => Some (Raised e self)
          | Ok (_, self) =>
              let self := emit self [Sleep 500] in
              let self := set_running self false in
              match rx_loop self reads with
              | None => None
              | Some self => Some (Returned (save_or_report self output_file))
              end
          end
      end
  end.

(** The loop [while self.running: time.sleep(0.1)] of [listen_record] and
    the [except KeyboardInterrupt] around it.  [interrupt] is the number of
    sleeps completed before the interrupt arrives, [None] when it never
    does; the result is [None] when [fuel] iterations did not leave the
    loop. *)
Fixpoint listen_wait (fuel : nat) (self : tool) (interrupt : option nat)
  : option tool :=
  match fuel with
  | O => None
  | S fuel' =>
      if running self then
        match interrupt with
        | Some O => Some (emit self [Print MsgUserInterrupt])
        | Some (S n) => listen_wait fuel' (emit self [Sleep 100]) (Some n)
        | None => listen_wait fuel' (emit self [Sleep 100]) None
        end
      else Some self
  end.

(** [listen_record]: waits for the user's interrupt instead of a timer;
    [MsgListen] stands for the lines of the banner. *)
Definition listen_record (fuel : nat) (self : tool) (output_file : string)
    (interrupt : option nat) (reads : list read_outcome) : option tool :=
  let self := set_audio_data self [] in
  let self := set_running self true in
  let self := emit self [Print MsgListen] in
  match listen_wait fuel self interrupt with
  | None => None
  | Some self =>
      let self := set_running self false in
      match rx_loop self reads with
      | None => None
      | Some self => Some (save_or_report self output_file)
      end
  end.

(** What [load_audio_file] returns:
    [(frames, sample_rate, sample_width, channels, audio_format)]. *)
Definition audio : Type := (bytes * N * N * N * N)%type.

(** [len(frames) / d] in the duration line. *)
Definition true_div (n : nat) (d : N) : result (nat * N) :=
  if N.eqb d 0 then Raise ZeroDivisionError else Ok (n, d).

(** The body of the [for i in range(0, len(frames), chunk_size)] loop. *)
Definition send_chunk (frames : bytes) (chunk_size total_chunks : nat) (mp3 : bool)
    (self : tool) (i : nat) : result tool :=
  let chunk := Py.slice frames i (i + chunk_size) in
  sent <- send_frame self CMD_AUDIO_DATA chunk ;;
  Ok (emit (snd sent)
        [ Print (MsgProgress (i / chunk_size + 1) total_chunks);
          Sleep (if mp3 then 10 else 20) ]).

Fixpoint for_each {A S : Type} (body : S -> A -> result S) (xs : list A) (s : S)
  : result S :=
  match xs with
  | [] => Ok s
  | x :: xs' => s' <- body s x ;; for_each body xs' s'
  end.

(** [play_audio]; [loaded] is the result of [self.load_audio_file(filename)]. *)
Definition play_audio (self : tool) (filename : string) (loaded : option audio)
    (reads : list read_outcome) : run tool :=
  match loaded with
  | None => ret self
  | Some (frames, framerate, sample_width, channels, audio_format) =>
      let mp3 := N.eqb audio_format AUDIO_FORMAT_MP3 in
      let self := emit self [Print (MsgPlayFile filename)] in
      self <~ call (
        if mp3 then
          Ok (emit self [Print (MsgFormat true); Print (MsgSize (length frames))])
        else
          let self := emit self
            [ Print (MsgFormat false);
              Print (MsgSampleRate framerate);
              Print (MsgBits (sample_width * 8)%N);
              Print (MsgChannels channels);
              Print (MsgSize (length frames)) ] in
          d <- true_div (length frames) (framerate * channels * sample_width)%N ;;
          Ok (emit self [Print (MsgDuration (fst d) (snd d))])) ;;
      let self := set_running self true in
      let self := emit self [Print (MsgSetFormat mp3)] in
      fmt <~ call (Py.bytes1 audio_format) ;;
      sent <~ call (send_frame self CMD_SET_FORMAT fmt) ;;
      let self := emit (snd sent) [Sleep 200] in
      sent <~ call (send_frame self CMD_START_PLAY []) ;;
      let self := emit (snd sent) [Sleep 500] in
      let chunk_size := if mp3 then 1024 else 512 in
      let total_chunks := (length frames + chunk_size - 1) / chunk_size in
      let self := emit self [Print MsgSending] in
      self <~ call (for_each (send_chunk frames chunk_size total_chunks mp3)
                             (Py.range_step (length frames) chunk_size) self) ;;
      let self := emit self [Print MsgSendDone; Sleep 500] in
      sent <~ call (send_frame self CMD_STOP_PLAY []) ;;
      let self := set_running (snd sent) false in
      join (rx_loop self reads)
  end.

(** ** Vocabulary of the properties *)

(** [sub] occurs in [b] as a contiguous run of bytes. *)
Definition occurs (sub b : bytes) : Prop :=
  exists pre post, b = pre ++ sub ++ post.

(** The XOR-reduction [b1 xor (b2 xor (... xor 0))] of a byte sequence. *)
Definition xor_fold (data : bytes) : N :=
  fold_right (fun b acc => N.lxor (Byte.to_N b) acc) 0%N data.

(** The wire layout of one frame. *)
Definition wire (c lo hi : byte) (data : bytes) (chk : byte) : bytes :=
  xaa :: x55 :: c :: lo :: hi :: data ++ [chk].

(** The length announced by the two length bytes. *)
Definition announced (lo hi : byte) : nat := Byte.to_nat lo + 256 * Byte.to_nat hi.

(** A frame on the wire whose length field and checksum are right. *)
Definition well_formed (c lo hi : byte) (data : bytes) (chk : byte) : Prop :=
  length data = announced lo hi /\
  Byte.to_N chk = calc_checksum (c :: lo :: hi :: data).

(** The checksum [parse_frame] computes for a buffer that starts with a
    frame: the length is read from the buffer's own length field and the
    XOR taken over [buffer[2 : 5+length]] (lines 134 and 145). *)
Definition computed_checksum (buffer : bytes) : result N :=
  length_ <- Struct.unpack_H (Py.slice buffer 3 5) ;;
  Ok (calc_checksum (Py.slice buffer 2 (5 + length_))).

(** Bit [k] of a byte flipped. *)
Definition flip_bit (k : nat) (b : byte) : byte :=
  match Byte.of_N (N.lxor (Byte.to_N b) (2 ^ N.of_nat k)) with
  | Some b' => b'
  | None => b
  end.

(** Bit [k] of the byte at offset [i] flipped. *)
Fixpoint flip_at (i k : nat) (b : bytes) : bytes :=
  match b, i with
  | [], _ => []
  | x :: b', O => flip_bit k x :: b'
  | x :: b', S i' => x :: flip_at i' k b'
  end.

(** The five ways a call of [parse_frame] ends: what it reports, the buffer
    it returns and what it prints. *)
Inductive parse_case (buffer : bytes) : option frame -> bytes -> list message -> Prop :=
| NoHeader :
    Py.find buffer FRAME_HEADER = None ->
    parse_case buffer None (Py.slice_last buffer) []
| TooShort idx :
    Py.find buffer FRAME_HEADER = Some idx ->
    length (skipn idx buffer) < 6 ->
    parse_case buffer None (skipn idx buffer) []
| Incomplete idx c lo hi tl :
    Py.find buffer FRAME_HEADER = Some idx ->
    skipn idx buffer = xaa :: x55 :: c :: lo :: hi :: tl ->
    length tl < announced lo hi + 1 ->
    parse_case buffer None (skipn idx buffer) []
| Corrupt idx c lo hi data chk rest :
    Py.find buffer FRAME_HEADER = Some idx ->
    skipn idx buffer = wire c lo hi data chk ++ rest ->
    length data = announced lo hi ->
    Byte.to_N chk <> calc_checksum (c :: lo :: hi :: data) ->
    parse_case buffer None (skipn (idx + 2) buffer)
      [MsgChecksumError (calc_checksum (c :: lo :: hi :: data)) (Byte.to_N chk)]
| Valid idx c lo hi data chk rest :
    Py.find buffer FRAME_HEADER = Some idx ->
    skipn idx buffer = wire c lo hi data chk ++ rest ->
    well_formed c lo hi data chk ->
    parse_case buffer (Some (Byte.to_N c, data)) rest [].

(** The final byte of a buffer, as a byte sequence; empty for the empty
    buffer. *)
Definition final_byte (b : bytes) : bytes :=
  match b with
  | [] => []
  | _ :: _ => [last b x00]
  end.

(** The results of [n] successive calls of [parse_frame], each on the
    buffer the call before it returned. *)
Fixpoint reparse (n : nat) (buffer : bytes) : list (option frame) :=
  match n with
  | O => []
  | S n' =>
      match parse_frame buffer with
      | Ok (res, rest, _) => res :: reparse n' rest
      | Raise _ => []
      end
  end.

(** The number of iterations the inner loop of [rx_loop] makes on a
    buffer: one per call of [parse_frame]. *)
Definition drain_iterations (fuel : nat) (buffer : bytes) : option (nat * result bytes) :=
  drain_with (fun n _ _ => n) (fun n _ => S n) fuel 0 buffer.

(** The reading of the resynchronisation property under which every
    later valid frame of the buffer is reached: after a frame with a bad
    checksum at the first header, some later call of [parse_frame] yields
    any valid frame that follows in the same buffer. *)
Definition always_resynchronises : Prop :=
  forall buffer idx c lo hi data chk rest,
    Py.find buffer FRAME_HEADER = Some idx ->
    skipn idx buffer = wire c lo hi data chk ++ rest ->
    length data = announced lo hi ->
    Byte.to_N chk <> calc_checksum (c :: lo :: hi :: data) ->
    parse_frame buffer
    = Ok (None, skipn (idx + 2) buffer,
          [MsgChecksumError (calc_checksum (c :: lo :: hi :: data)) (Byte.to_N chk)]) /\
    forall cmd payload good mid post,
      build_frame cmd payload = Ok good ->
      rest = mid ++ good ++ post ->
      exists n, In (Some (cmd, payload)) (reparse n (skipn (idx + 2) buffer)).


(** The parser, called again and again on the buffer each call returns,
    starting from [buffer], yields frame [f] at its call number [n + 1] and
    is then left with [post].  Every header marker it meets before starts a
    frame that is complete in the buffer: one with a wrong checksum byte
    costs a call and two bytes, one whose checksum byte matches is yielded
    and consumed whole. *)
Inductive reaches (f : frame) (post : bytes) : nat -> bytes -> Prop :=
| reaches_now buffer idx c lo hi data chk :
    Py.find buffer FRAME_HEADER = Some idx ->
    skipn idx buffer = wire c lo hi data chk ++ post ->
    well_formed c lo hi data chk ->
    f = (Byte.to_N c, data) ->
    reaches f post 0 buffer
| reaches_past_corrupt n buffer idx c lo hi data chk rest :
    Py.find buffer FRAME_HEADER = Some idx ->
    skipn idx buffer = wire c lo hi data chk ++ rest ->
    length data = announced lo hi ->
    Byte.to_N chk <> calc_checksum (c :: lo :: hi :: data) ->
    reaches f post n (skipn (idx + 2) buffer) ->
    reaches f post (S n) buffer
| reaches_past_frame n buffer idx c lo hi data chk rest :
    Py.find buffer FRAME_HEADER = Some idx ->
    skipn idx buffer = wire c lo hi data chk ++ rest ->
    well_formed c lo hi data chk ->
    reaches f post n rest ->
    reaches f post (S n) buffer.

(** Frame [f] stands in the byte sequence [bs] with the header, its
    length in the length field and a matching checksum byte. *)
Definition valid_in (bs : bytes) (f : frame) : Prop :=
  exists pre post c lo hi chk,
    bs = pre ++ wire c lo hi (snd f) chk ++ post /\
    fst f = Byte.to_N c /\
    well_formed c lo hi (snd f) chk.

(** The bytes the receive loop has read. *)
Fixpoint stream (reads : list read_outcome) : bytes :=
  match reads with
  | [] => []
  | ReadData data :: reads' => data ++ stream reads'
  | ReadFail _ :: _ => []
  end.

(** What a dispatched frame adds to the audio accumulator. *)
Definition audio_payload (f : frame) : bytes :=
  if N.eqb (fst f) CMD_AUDIO_DATA then snd f else [].

Definition is_wav_write (e : event) : bool :=
  match e with
  | WavWrite _ _ _ _ _ => true
  | _ => false
  end.

(** What the receive thread adds to the console: progress, acknowledgment
    and diagnostic lines only. *)
Definition rx_effect (e : event) : Prop :=
  is_wav_write e = false /\ e <> Print MsgNoAudioData.

(** The payloads of the successive iterations of the sending loop of
    [play_audio]: [frames[i:i+chunk_size]] for [i] in
    [range(0, len(frames), chunk_size)]. *)
Definition chunks (frames : bytes) (chunk_size : nat) : list bytes :=
  map (fun i => Py.slice frames i (i + chunk_size))
      (Py.range_step (length frames) chunk_size).

(** [g] is the encoding of frame [f], as [send_frame] builds it. *)
Definition encodes (f : frame) (g : bytes) : Prop :=
  build_frame (fst f) (snd f) = Ok g.

(** The frames [fs] stand in [bs] in this order, one after the other
    without overlap, each with a right length field and checksum byte, and
    [left] is what follows the last of them. *)
Inductive carved : bytes -> list frame -> bytes -> Prop :=
| carved_nil bs pre left :
    bs = pre ++ left ->
    carved bs [] left
| carved_cons bs pre c lo hi data chk rest fs left :
    bs = pre ++ wire c lo hi data chk ++ rest ->
    well_formed c lo hi data chk ->
    carved rest fs left ->
    carved bs ((Byte.to_N c, data) :: fs) left.

(** The bytes a list of frames takes on the wire. *)
Definition wire_size (fs : list frame) : nat :=
  list_sum (map (fun f => 6 + length (snd f)) fs).

(** The buffer [b] holds nothing, or the beginning of the first of the
    encodings [goods] and not all of it. *)
Definition waiting (b : bytes) (goods : list bytes) : Prop :=
  b = [] \/ exists g gs q, goods = g :: gs /\ g = b ++ q /\ q <> [].

(** A read that timed out: no bytes. *)
Definition is_timeout (r : read_outcome) : bool :=
  match r with
  | ReadData [] => true
  | _ => false
  end.

(** The time spent in [time.sleep], in milliseconds. *)
Fixpoint total_sleep (es : list event) : N :=
  match es with
  | [] => 0
  | Sleep ms :: es' => ms + total_sleep es'
  | _ :: es' => total_sleep es'
  end.

(** The lines the receive loop itself prints. *)
Definition rx_message (m : message) : Prop :=
  m = MsgRxError \/ exists expected received, m = MsgChecksumError expected received.



(** * Properties *)

(** ** Bytes and integers *)

Lemma to_N_lt_256 (b : byte) : (Byte.to_N b < 256)%N.
Proof. pose proof (Byte.to_N_bounded b). lia. Qed.

Lemma to_nat_lt_256 (b : byte) : Byte.to_nat b < 256.
Proof. pose proof (Byte.to_nat_bounded b). lia. Qed.

Lemma of_N_some (n : N) : (n < 256)%N -> exists b, Byte.of_N n = Some b /\ Byte.to_N b = n.
Proof.
  intros Hn. destruct (Byte.of_N n) as [b|] eqn:E.
  - exists b. split; [reflexivity | now apply Byte.to_of_N].
  - apply Byte.of_N_None_iff in E. lia.
Qed.

Lemma of_nat_some (n : nat) : n < 256 -> exists b, Byte.of_nat n = Some b /\ Byte.to_nat b = n.
Proof.
  intros Hn. destruct (Byte.of_nat n) as [b|] eqn:E.
  - exists b. split; [reflexivity | now apply Byte.to_of_nat].
  - apply Byte.of_nat_None_iff in E. lia.
Qed.

Lemma to_N_inj (a b : byte) : Byte.to_N a = Byte.to_N b -> a = b.
Proof.
  intros H. pose proof (Byte.of_to_N a) as Ha. rewrite H, Byte.of_to_N in Ha.
  congruence.
Qed.

Lemma byte_eqb_refl (b : byte) : Byte.eqb b b = true.
Proof. now apply Byte.byte_dec_lb. Qed.

Lemma lxor_lt_256 (a b : N) : (a < 256)%N -> (b < 256)%N -> (N.lxor a b < 256)%N.
Proof.
  intros Ha Hb.
  destruct (N.eq_dec (N.lxor a b) 0) as [E|E]; [rewrite E; lia|].
  apply N.log2_lt_pow2 with (b := 8%N); [lia|].
  pose proof (N.log2_lxor a b) as Hl.
  assert (Hla : (N.log2 a < 8)%N).
  { destruct (N.eq_dec a 0) as [->|]; [cbn; lia|]. apply N.log2_lt_pow2; lia. }
  assert (Hlb : (N.log2 b < 8)%N).
  { destruct (N.eq_dec b 0) as [->|]; [cbn; lia|]. apply N.log2_lt_pow2; lia. }
  lia.
Qed.

(** ** Checksum *)

Lemma fold_xor_from (data : bytes) (acc : N) :
  fold_left (fun checksum b => N.lxor checksum (Byte.to_N b)) data acc
  = N.lxor acc (calc_checksum data).
Proof.
  unfold calc_checksum. revert acc.
  induction data as [|x data IH]; intros acc; cbn [fold_left].
  - now rewrite N.lxor_0_r.
  - rewrite IH, (IH (N.lxor 0 _)), N.lxor_0_l. now rewrite N.lxor_assoc.
Qed.

Lemma calc_checksum_cons (x : byte) (data : bytes) :
  calc_checksum (x :: data) = N.lxor (Byte.to_N x) (calc_checksum data).
Proof.
  unfold calc_checksum at 1. cbn [fold_left].
  now rewrite fold_xor_from, N.lxor_0_l.
Qed.


Lemma calc_checksum_lt_256 (data : bytes) : (calc_checksum data < 256)%N.
Proof.
  induction data as [|x data IH].
  - cbn. lia.
  - rewrite calc_checksum_cons. apply lxor_lt_256; [apply to_N_lt_256 | exact IH].
Qed.

(** C9: [calc_checksum] is the XOR-fold of its input, for an input of any
    length; its value is a byte value (0..255); on the empty sequence it
    is 0. *)
Theorem calc_checksum_xor_fold :
  forall data : bytes,
    calc_checksum data = xor_fold data /\
    (0 <= calc_checksum data <= 255)%N /\
    calc_checksum [] = 0%N.
Proof.
  intros data. split; [|split].
  - induction data as [|x data IH]; [reflexivity|].
    rewrite calc_checksum_cons, IH. reflexivity.
  - pose proof (calc_checksum_lt_256 data). lia.
  - reflexivity.
Qed.

(** ** Lists *)

Lemma firstn_exact {A : Type} (a b : list A) : firstn (length a) (a ++ b) = a.
Proof. induction a as [|x a IH]; cbn; [now destruct b | now rewrite IH]. Qed.

Lemma skipn_exact {A : Type} (a b : list A) : skipn (length a) (a ++ b) = b.
Proof. induction a as [|x a IH]; cbn; auto. Qed.

Lemma nth_error_exact {A : Type} (a b : list A) (x : A) :
  nth_error (a ++ x :: b) (length a) = Some x.
Proof. induction a as [|y a IH]; cbn; auto. Qed.

Lemma split_at {A : Type} (n : nat) (l : list A) :
  n < length l ->
  exists a x b, l = a ++ x :: b /\ length a = n.
Proof.
  revert l. induction n as [|n IH]; intros [|y l] Hl; cbn in Hl; try lia.
  - exists [], y, l. auto.
  - destruct (IH l) as (a & x & b & -> & Ha); [lia|].
    exists (y :: a), x, b. cbn. auto.
Qed.

(** ** [find] *)

Lemma startswith_spec (b sub : bytes) :
  Py.startswith b sub = true <-> exists rest, b = sub ++ rest.
Proof.
  revert b. induction sub as [|s sub IH]; intros b.
  - split; [intros _; now exists b | now destruct b].
  - destruct b as [|x b]; cbn [Py.startswith].
    + split; [discriminate | intros [rest H]; discriminate].
    + rewrite andb_true_iff, IH. split.
      * intros [Hx [rest ->]]. apply Byte.byte_dec_bl in Hx. subst. now exists rest.
      * intros [rest H]. injection H as -> ->. split; [apply byte_eqb_refl | now exists rest].
Qed.

Lemma find_from_some (sub b : bytes) (i k : nat) :
  Py.find_from i b sub = Some k ->
  i <= k /\ k - i <= length b /\ exists rest, skipn (k - i) b = sub ++ rest.
Proof.
  revert i. induction b as [|x b IH]; intros i; cbn [Py.find_from].
  - destruct (Py.startswith [] sub) eqn:E; [|discriminate].
    intros [= <-]. apply startswith_spec in E. rewrite Nat.sub_diag. cbn. auto.
  - destruct (Py.startswith (x :: b) sub) eqn:E.
    + intros [= <-]. apply startswith_spec in E. rewrite Nat.sub_diag. cbn.
      repeat split; auto; lia.
    + intros H. apply IH in H as (Hle & Hlen & rest & Hrest).
      replace (k - i) with (S (k - S i)) by lia. cbn. repeat split; try lia.
      now exists rest.
Qed.

Lemma find_some (sub b : bytes) (k : nat) :
  Py.find b sub = Some k ->
  k <= length b /\ exists rest, skipn k b = sub ++ rest.
Proof.
  intros H. apply find_from_some in H as (_ & Hlen & Hrest).
  rewrite Nat.sub_0_r in *. auto.
Qed.

Lemma find_some_occurs (sub b : bytes) (k : nat) :
  Py.find b sub = Some k -> occurs sub b.
Proof.
  intros H. apply find_some in H as (_ & rest & Hrest).
  exists (firstn k b), rest. now rewrite <- Hrest, firstn_skipn.
Qed.

Lemma find_from_none (sub b : bytes) (i : nat) :
  Py.find_from i b sub = None -> ~ occurs sub b.
Proof.
  intros Hnone (pre & post & ->). revert i Hnone.
  induction pre as [|x pre IH]; intros i.
  - cbn [app].
    assert (E : Py.startswith (sub ++ post) sub = true)
      by (apply startswith_spec; now exists post).
    destruct (sub ++ post); cbn [Py.find_from]; now rewrite E.
  - cbn [app Py.find_from].
    destruct (Py.startswith (x :: pre ++ sub ++ post) sub); [discriminate|].
    apply IH.
Qed.

(** [find] misses no occurrence. *)
Lemma find_none (sub b : bytes) : Py.find b sub = None -> ~ occurs sub b.
Proof. apply find_from_none. Qed.

Lemma find_at_start (sub rest : bytes) : Py.find (sub ++ rest) sub = Some 0.
Proof.
  unfold Py.find.
  assert (E : Py.startswith (sub ++ rest) sub = true)
    by (apply startswith_spec; now exists rest).
  destruct (sub ++ rest); cbn [Py.find_from]; now rewrite E.
Qed.

(** ** Encoding *)

Lemma build_frame_wire (cmd : N) (data : bytes) :
  (cmd < 256)%N -> length data <= 255 + 256 * 255 ->
  exists c lo hi chk,
    build_frame cmd data = Ok (wire c lo hi data chk) /\
    Byte.to_N c = cmd /\
    Byte.to_nat lo = length data mod 256 /\
    Byte.to_nat hi = length data / 256 /\
    well_formed c lo hi data chk.
Proof.
  intros Hcmd Hlen.
  destruct (of_N_some _ Hcmd) as (c & Ec & Hc).
  destruct (of_nat_some (length data mod 256)) as (lo & Elo & Hlo); [lia|].
  destruct (of_nat_some (length data / 256)) as (hi & Ehi & Hhi); [lia|].
  destruct (of_N_some _ (calc_checksum_lt_256 (c :: lo :: hi :: data)))
    as (chk & Echk & Hchk).
  exists c, lo, hi, chk.
  unfold build_frame, Struct.pack_2sBH, Struct.pack_B, Struct.pack_H, Py.bytes1.
  rewrite Ec. cbn [bind].
  destruct (Nat.leb_spec (length data) (255 + 256 * 255)) as [_|]; [|lia].
  rewrite Elo, Ehi. cbn [bind Struct.pack_2s FRAME_HEADER app firstn Py.slice_from skipn].
  rewrite Echk. cbn [bind]. unfold wire, well_formed, announced.
  repeat split; auto. lia.
Qed.

(** C4: the handshake command 0x06 with an empty payload is encoded as
    AA 55 06 00 00 06, and the audio-data command 0x03 with payload
    10 20 as AA 55 03 02 00 10 20 31: the length field is little-endian
    and the last byte is the XOR of command, length bytes and payload. *)
Theorem build_frame_scenarios :
  build_frame CMD_HANDSHAKE [] = Ok [xaa; x55; x06; x00; x00; x06] /\
  calc_checksum [x06; x00; x00] = 6%N /\
  build_frame CMD_AUDIO_DATA [x10; x20]
    = Ok [xaa; x55; x03; x02; x00; x10; x20; x31] /\
  calc_checksum [x03; x02; x00; x10; x20] = 49%N /\
  (forall written,
      send_frame (mkTool (Some written) false [] []) CMD_HANDSHAKE []
      = Ok (true, mkTool (Some (written ++ [[xaa; x55; x06; x00; x00; x06]]))
                         false [] [])).
Proof. repeat split. Qed.

(** ** The parser on a buffer whose first header starts a whole frame *)

Section Slices.

Variables (a0 a1 c lo hi : byte) (tl : bytes) (n : nat).

Let b := a0 :: a1 :: c :: lo :: hi :: tl.

Lemma index_command : Py.index b 2 = Ok (Byte.to_N c).
Proof. reflexivity. Qed.

Lemma slice_length_field : Py.slice b 3 5 = [lo; hi].
Proof. reflexivity. Qed.

Lemma slice_payload : Py.slice b 5 (5 + n) = firstn n tl.
Proof. unfold Py.slice. now replace (5 + n - 5) with n by lia. Qed.

Lemma slice_covered : Py.slice b 2 (5 + n) = c :: lo :: hi :: firstn n tl.
Proof. unfold Py.slice. now replace (5 + n - 2) with (S (S (S n))) by lia. Qed.

Lemma index_checksum : Py.index b (5 + n) = Py.index tl n.
Proof. reflexivity. Qed.

Lemma slice_from_frame_end : Py.slice_from b (5 + n + 1) = skipn (S n) tl.
Proof. unfold Py.slice_from. now replace (5 + n + 1) with (5 + S n) by lia. Qed.

Lemma length_frame_buffer : length b = 5 + length tl.
Proof. reflexivity. Qed.

End Slices.

Lemma parse_frame_whole (buffer : bytes) (idx : nat) c lo hi data chk rest :
  Py.find buffer FRAME_HEADER = Some idx ->
  skipn idx buffer = wire c lo hi data chk ++ rest ->
  length data = announced lo hi ->
  parse_frame buffer =
    if N.eqb (Byte.to_N chk) (calc_checksum (c :: lo :: hi :: data))
    then Ok (Some (Byte.to_N c, data), rest, [])
    else Ok (None, skipn (idx + 2) buffer,
             [MsgChecksumError (calc_checksum (c :: lo :: hi :: data)) (Byte.to_N chk)]).
Proof.
  intros Hfind Hskip Hlen.
  assert (Hdrop : skipn (idx + 2) buffer = c :: lo :: hi :: data ++ chk :: rest).
  { rewrite Nat.add_comm, <- skipn_skipn, Hskip. unfold wire. cbn.
    now rewrite <- app_assoc. }
  unfold parse_frame. rewrite Hfind.
  change (Py.slice_from buffer idx) with (skipn idx buffer). rewrite Hskip.
  unfold wire. cbn [app]. rewrite <- app_assoc. cbn [app].
  rewrite length_frame_buffer, length_app. cbn [length].
  destruct (Nat.ltb_spec (5 + (length data + S (length rest))) 6) as [H|_]; [lia|].
  rewrite index_command, slice_length_field.
  cbn [bind Struct.unpack_H]. fold (announced lo hi).
  destruct (Nat.ltb_spec (5 + (length data + S (length rest)))
                         (5 + announced lo hi + 1)) as [H|_]; [lia|].
  rewrite index_checksum, slice_covered, slice_payload, slice_from_frame_end.
  rewrite <- Hlen. unfold Py.index, Py.slice_from.
  rewrite nth_error_exact, firstn_exact. cbn [bind].
  replace (skipn (S (length data)) (data ++ chk :: rest)) with rest.
  2:{ replace (data ++ chk :: rest) with ((data ++ [chk]) ++ rest)
        by (now rewrite <- app_assoc).
      replace (S (length data)) with (length (data ++ [chk]))
        by (rewrite length_app; cbn; lia).
      now rewrite skipn_exact. }
  destruct (N.eqb (Byte.to_N chk) (calc_checksum (c :: lo :: hi :: data)));
    cbn [negb]; [reflexivity|].
  now rewrite Hdrop.
Qed.

(** Every call of [parse_frame] returns, in one of the five ways. *)
Lemma parse_frame_cases (buffer : bytes) :
  exists res rest out,
    parse_frame buffer = Ok (res, rest, out) /\ parse_case buffer res rest out.
Proof.
  destruct (Py.find buffer FRAME_HEADER) as [idx|] eqn:Hfind.
  2:{ exists None, (Py.slice_last buffer), []. split; [|now constructor].
      unfold parse_frame. rewrite Hfind. now destruct buffer. }
  destruct (find_some _ _ _ Hfind) as (Hidx & tl0 & Hskip).
  destruct (Nat.ltb_spec (length (skipn idx buffer)) 6) as [Hshort|Hlong].
  { exists None, (skipn idx buffer), []. split; [|now apply TooShort].
    unfold parse_frame. rewrite Hfind.
    change (Py.slice_from buffer idx) with (skipn idx buffer).
    destruct (Nat.ltb_spec (length (skipn idx buffer)) 6); [reflexivity | lia]. }
  cbn [FRAME_HEADER app] in Hskip. rewrite Hskip in Hlong.
  destruct tl0 as [|c [|lo [|hi tl]]]; cbn in Hlong; try lia.
  destruct (Nat.ltb_spec (length tl) (announced lo hi + 1)) as [Hinc|Hfull].
  { exists None, (skipn idx buffer), []. split; [|now eapply Incomplete; eauto].
    unfold parse_frame. rewrite Hfind.
    change (Py.slice_from buffer idx) with (skipn idx buffer). rewrite Hskip.
    rewrite length_frame_buffer.
    destruct (Nat.ltb_spec (5 + length tl) 6) as [H|_]; [lia|].
    rewrite index_command, slice_length_field.
    cbn [bind Struct.unpack_H]. fold (announced lo hi).
    destruct (Nat.ltb_spec (5 + length tl) (5 + announced lo hi + 1)) as [_|H];
      [reflexivity | lia]. }
  destruct (split_at (announced lo hi) tl) as (data & chk & rest & -> & Hdata); [lia|].
  assert (Hwire : skipn idx buffer = wire c lo hi data chk ++ rest).
  { rewrite Hskip. unfold wire. cbn. now rewrite <- app_assoc. }
  pose proof (parse_frame_whole _ _ _ _ _ _ _ _ Hfind Hwire Hdata) as Hparse.
  destruct (N.eqb_spec (Byte.to_N chk) (calc_checksum (c :: lo :: hi :: data))) as [E|E].
  - exists (Some (Byte.to_N c, data)), rest, []. split; [exact Hparse|].
    eapply Valid; eauto. now split.
  - eexists None, _, _. split; [exact Hparse|]. eapply Corrupt; eauto.
Qed.

(** [parse_frame] raises nothing. *)
Lemma parse_frame_total (buffer : bytes) : exists r, parse_frame buffer = Ok r.
Proof. destruct (parse_frame_cases buffer) as (res & rest & out & H & _). eauto. Qed.

Lemma parse_frame_inv (buffer : bytes) res rest out :
  parse_frame buffer = Ok (res, rest, out) -> parse_case buffer res rest out.
Proof.
  intros H. destruct (parse_frame_cases buffer) as (res' & rest' & out' & H' & Hc).
  congruence.
Qed.

Lemma build_frame_inv (cmd : N) (data good : bytes) :
  build_frame cmd data = Ok good ->
  exists c lo hi chk,
    good = wire c lo hi data chk /\ Byte.to_N c = cmd /\ well_formed c lo hi data chk.
Proof.
  intros H.
  assert (Hcmd : (cmd < 256)%N).
  { destruct (N.lt_ge_cases cmd 256) as [|Hge]; [assumption|].
    unfold build_frame, Struct.pack_2sBH, Struct.pack_B in H.
    destruct (Byte.of_N cmd) eqn:E; [|discriminate].
    apply Byte.to_of_N in E. pose proof (to_N_lt_256 b). lia. }
  assert (Hlen : length data <= 255 + 256 * 255).
  { unfold build_frame, Struct.pack_2sBH, Struct.pack_B, Struct.pack_H in H.
    destruct (Byte.of_N cmd); [|discriminate]. cbn [bind] in H.
    destruct (Nat.leb_spec (length data) (255 + 256 * 255)); [assumption | discriminate]. }
  destruct (build_frame_wire cmd data Hcmd Hlen) as (c & lo & hi & chk & E & Hc & _ & _ & Hwf).
  exists c, lo, hi, chk. rewrite E in H. injection H as <-. auto.
Qed.

(** The parser yields a frame whose encoding starts at the first header. *)
Lemma parse_frame_found (buffer : bytes) (k : nat) cmd payload good post :
  build_frame cmd payload = Ok good ->
  Py.find buffer FRAME_HEADER = Some k ->
  skipn k buffer = good ++ post ->
  parse_frame buffer = Ok (Some (cmd, payload), post, []).
Proof.
  intros Hgood Hfind Hskip.
  destruct (build_frame_inv _ _ _ Hgood) as (c & lo & hi & chk & -> & <- & Hlen & Hchk).
  rewrite (parse_frame_whole _ _ _ _ _ _ _ _ Hfind Hskip Hlen), Hchk.
  now rewrite N.eqb_refl.
Qed.

(** C1: for a command byte and a payload of at most 65535 bytes,
    [send_frame] writes an encoding which the parser, fed that encoding
    followed by any bytes [trailing], decodes to exactly the command and the
    payload, returning exactly [trailing] as the remaining buffer; with
    nothing trailing this is the round trip of encoding and decoding. *)
Theorem parse_frame_build_frame :
  forall (cmd : N) (payload trailing : bytes),
    (cmd < 256)%N ->
    length payload <= 65535 ->
    exists encoded,
      build_frame cmd payload = Ok encoded /\
      (forall self written,
          serial self = Some written ->
          send_frame self cmd payload
          = Ok (true, set_serial self (Some (written ++ [encoded])))) /\
      parse_frame (encoded ++ trailing) = Ok (Some (cmd, payload), trailing, []) /\
      parse_frame encoded = Ok (Some (cmd, payload), [], []).
Proof.
  intros cmd payload trailing Hcmd Hlen.
  change 65535 with (255 + 256 * 255) in Hlen.
  destruct (build_frame_wire cmd payload Hcmd Hlen) as (c & lo & hi & chk & E & _).
  exists (wire c lo hi payload chk).
  assert (Hparse : forall post,
             parse_frame (wire c lo hi payload chk ++ post)
             = Ok (Some (cmd, payload), post, [])).
  { intros post. apply parse_frame_found with (k := 0) (good := wire c lo hi payload chk).
    - exact E.
    - apply (find_at_start FRAME_HEADER).
    - reflexivity. }
  repeat split.
  - exact E.
  - intros self written Hs. unfold send_frame. now rewrite Hs, E.
  - apply Hparse.
  - rewrite <- (app_nil_r (wire c lo hi payload chk)) at 1. apply Hparse.
Qed.

Lemma parse_frame_build_frame_witness :
  exists encoded,
    build_frame 3 [x10; x20] = Ok encoded /\
    (forall self written,
        serial self = Some written ->
        send_frame self 3 [x10; x20]
        = Ok (true, set_serial self (Some (written ++ [encoded])))) /\
    parse_frame (encoded ++ [xaa; x01]) = Ok (Some (3%N, [x10; x20]), [xaa; x01], []) /\
    parse_frame encoded = Ok (Some (3%N, [x10; x20]), [], []).
Proof.
  apply (parse_frame_build_frame 3 [x10; x20] [xaa; x01]).
  - reflexivity.
  - apply Nat.leb_le. vm_compute. reflexivity.
Defined.

(** ** No header in the buffer *)

Lemma slice_last_final_byte (b : bytes) :
  b <> [] -> Py.slice_last b = final_byte b.
Proof.
  intros Hb. unfold Py.slice_last.
  rewrite (app_removelast_last x00 Hb) at 2.
  replace (length b - 1) with (length (removelast b)).
  - rewrite skipn_exact. now destruct b.
  - rewrite (app_removelast_last x00 Hb) at 2. rewrite length_app. cbn. lia.
Qed.

(** C5: on a buffer in which the header marker AA 55 does not occur,
    [parse_frame] reports no frame and returns exactly the final byte of the
    buffer, and the empty sequence for the empty buffer. *)
Theorem parse_frame_no_header :
  forall buffer : bytes,
    ~ occurs FRAME_HEADER buffer ->
    parse_frame buffer = Ok (None, final_byte buffer, []) /\
    (buffer = [] -> final_byte buffer = []) /\
    (forall pre x, buffer = pre ++ [x] -> final_byte buffer = [x]).
Proof.
  intros buffer Hno. split; [|split].
  - unfold parse_frame.
    destruct (Py.find buffer FRAME_HEADER) as [idx|] eqn:Hfind.
    + exfalso. apply Hno. eapply find_some_occurs. eassumption.
    + destruct buffer as [|x buffer]; [reflexivity|].
      now rewrite slice_last_final_byte.
  - now intros ->.
  - intros pre x ->. unfold final_byte.
    destruct (pre ++ [x]) eqn:E; [now destruct pre|].
    rewrite <- E. now rewrite last_last.
Qed.

Lemma parse_frame_no_header_witness :
  parse_frame [x01; x55; xaa] = Ok (None, final_byte [x01; x55; xaa], []) /\
  ([x01; x55; xaa] = [] -> final_byte [x01; x55; xaa] = []) /\
  (forall pre x, [x01; x55; xaa] = pre ++ [x] -> final_byte [x01; x55; xaa] = [x]).
Proof.
  apply (parse_frame_no_header [x01; x55; xaa]).
  apply find_none. reflexivity.
Defined.

(** ** Bad checksum *)

(** A valid frame right behind the dropped one is reached by the second
    call. *)
Example resynchronises_on_second_call :
  reparse 2 [x00; xaa; x55; x01; x01; x00; x07; xff;
             xaa; x55; x06; x00; x00; x06; x09]
  = [None; Some (CMD_HANDSHAKE, [])].
Proof. reflexivity. Qed.

(** C2, as stated, fails: a header marker inside the corrupt frame can
    announce more bytes than the buffer holds, and every later call then
    returns the same buffer without reaching the valid frame behind it. *)
Lemma parse_frame_bad_checksum_can_stall : ~ always_resynchronises.
Proof.
  intros Hclaim.
  pose (bad := [xaa; x55; x01; xff; xff]).
  pose (good := [xaa; x55; x06; x00; x00; x06]).
  pose (stuck := bad ++ [x00] ++ good).
  destruct (Hclaim (wire x01 x05 x00 bad x00 ++ good) 0 x01 x05 x00 bad x00 good)
    as [_ Hfound].
  - reflexivity.
  - reflexivity.
  - reflexivity.
  - vm_compute. discriminate.
  - destruct (Hfound CMD_HANDSHAKE [] good [] []) as [n Hn].
    + reflexivity.
    + reflexivity.
    + change (skipn (0 + 2) (wire x01 x05 x00 bad x00 ++ good))
        with ([x01; x05; x00] ++ stuck) in Hn.
      assert (Hfirst : parse_frame ([x01; x05; x00] ++ stuck) = Ok (None, stuck, []))
        by (vm_compute; reflexivity).
      assert (Hstuck : parse_frame stuck = Ok (None, stuck, []))
        by (vm_compute; reflexivity).
      assert (Hrep : forall m, ~ In (Some (CMD_HANDSHAKE, [])) (reparse m stuck)).
      { induction m as [|m IH]; [intros []|].
        cbn [reparse]. rewrite Hstuck. intros [H|H]; [discriminate | auto]. }
      destruct n as [|n]; [destruct Hn|].
      cbn [reparse] in Hn. rewrite Hfirst in Hn.
      destruct Hn as [H|H]; [discriminate | exact (Hrep n H)].
Qed.

(** ** The parser consumes a prefix *)

Lemma parse_case_suffix (buffer : bytes) res rest out :
  parse_case buffer res rest out -> exists consumed, buffer = consumed ++ rest.
Proof.
  intros [Hf | idx Hf _ | idx c lo hi tl Hf _ _ | idx c lo hi data chk rest' Hf _ _ _
          | idx c lo hi data chk rest' Hf Hskip _].
  - exists (firstn (length buffer - 1) buffer). unfold Py.slice_last.
    now rewrite firstn_skipn.
  - exists (firstn idx buffer). now rewrite firstn_skipn.
  - exists (firstn idx buffer). now rewrite firstn_skipn.
  - exists (firstn (idx + 2) buffer). now rewrite firstn_skipn.
  - exists (firstn idx buffer ++ wire c lo hi data chk).
    rewrite <- app_assoc, <- Hskip. now rewrite firstn_skipn.
Qed.

Lemma parse_case_shrinks (buffer : bytes) f rest out :
  parse_case buffer (Some f) rest out -> length rest + 6 <= length buffer.
Proof.
  intros H. inversion H as [| | | | idx c lo hi data chk rest' Hf Hskip _]; subst.
  rewrite <- (firstn_skipn idx buffer), Hskip.
  unfold wire. cbn. rewrite !length_app. cbn. rewrite !length_app. cbn. lia.
Qed.

Lemma parse_case_valid (buffer : bytes) f rest out :
  parse_case buffer (Some f) rest out -> valid_in buffer f.
Proof.
  intros H. inversion H as [| | | | idx c lo hi data chk rest' Hf Hskip Hwf]; subst.
  exists (firstn idx buffer), rest, c, lo, hi, chk. cbn [fst snd].
  rewrite <- Hskip, firstn_skipn. auto.
Qed.

(** ** The inner loop of [rx_loop] *)

Section Drain.

Context {T : Type} (handle : T -> N -> bytes -> T) (say : T -> list message -> T).

Lemma drain_with_terminates (fuel : nat) :
  forall (self : T) (buffer : bytes),
    length buffer / 6 < fuel ->
    exists self' left,
      drain_with handle say fuel self buffer = Some (self', Ok left) /\
      exists consumed, buffer = consumed ++ left.
Proof.
  induction fuel as [|fuel IH]; intros self buffer Hfuel; [lia|].
  cbn [drain_with].
  destruct (parse_frame_cases buffer) as (res & rest & out & -> & Hcase).
  destruct res as [[cmd frame_data]|].
  - pose proof (parse_case_shrinks _ _ _ _ Hcase) as Hshrink.
    destruct (parse_case_suffix _ _ _ _ Hcase) as [consumed ->].
    destruct (IH (handle (say self out) cmd frame_data) rest)
      as (self' & left & -> & consumed' & ->); [lia|].
    exists self', left. split; [reflexivity|].
    exists (consumed ++ consumed'). now rewrite <- app_assoc.
  - exists (say self out), rest. split; [reflexivity|].
    eapply parse_case_suffix; eassumption.
Qed.

Lemma rx_loop_with_total (reads : list read_outcome) :
  forall (self : T) (buffer : bytes),
    exists self', rx_loop_with handle say self buffer reads = Some self'.
Proof.
  induction reads as [|[data|still_running] reads IH]; intros self buffer;
    cbn [rx_loop_with]; [eauto | | eauto].
  destruct data as [|x data]; [apply IH|].
  destruct (drain_with_terminates (length (buffer ++ x :: data) / 6 + 1)
              self (buffer ++ x :: data)) as (self' & left & -> & _); [lia|].
  apply IH.
Qed.

End Drain.

Lemma drain_iterations_bound (fuel : nat) :
  forall (n0 : nat) (buffer : bytes) n r,
    drain_with (fun n _ _ => n) (fun n _ => S n) fuel n0 buffer = Some (n, r) ->
    n <= n0 + length buffer / 6 + 1.
Proof.
  induction fuel as [|fuel IH]; intros n0 buffer n r; cbn [drain_with]; [discriminate|].
  destruct (parse_frame_cases buffer) as (res & rest & out & -> & Hcase).
  destruct res as [[cmd frame_data]|].
  - intros H. apply IH in H.
    pose proof (parse_case_shrinks _ _ _ _ Hcase). lia.
  - intros [= <- _]. lia.
Qed.

(** C10: the buffer [parse_frame] returns is a suffix of its input, at
    least 6 bytes shorter when a frame is yielded; and on any buffer the
    inner loop of [rx_loop] reaches its [break] within
    [len(buffer)/6 + 1] iterations. *)
Theorem parse_frame_consumes_prefix :
  forall buffer : bytes,
    (exists res rest out,
        parse_frame buffer = Ok (res, rest, out) /\
        (exists consumed, buffer = consumed ++ rest) /\
        (res <> None -> length rest + 6 <= length buffer)) /\
    (forall fuel,
        length buffer / 6 + 1 <= fuel ->
        exists n left,
          drain_iterations fuel buffer = Some (n, Ok left) /\
          n <= length buffer / 6 + 1) /\
    (forall self, exists self' left,
        drain (length buffer / 6 + 1) self buffer = Some (self', Ok left)).
Proof.
  intros buffer. split; [|split].
  - destruct (parse_frame_cases buffer) as (res & rest & out & H & Hcase).
    exists res, rest, out. split; [exact H|]. split.
    + eapply parse_case_suffix; eassumption.
    + destruct res as [f|]; [intros _ | congruence].
      eapply parse_case_shrinks; eassumption.
  - intros fuel Hfuel. unfold drain_iterations.
    destruct (drain_with_terminates (fun n _ _ => n) (fun n _ => S n) fuel 0 buffer)
      as (n & left & H & _); [lia|].
    exists n, left. split; [exact H|].
    apply drain_iterations_bound in H. lia.
  - intros self. unfold drain.
    destruct (drain_with_terminates handle_frame say_tool
                (length buffer / 6 + 1) self buffer) as (self' & left & H & _); [lia|].
    eauto.
Qed.

(** [rx_loop] always comes to an end. *)
Lemma rx_loop_total (self : tool) (reads : list read_outcome) :
  exists self', rx_loop self reads = Some self'.
Proof. apply rx_loop_with_total. Qed.

(** ** Only valid frames are dispatched *)

Lemma valid_in_app (pre bs post : bytes) (f : frame) :
  valid_in bs f -> valid_in (pre ++ bs ++ post) f.
Proof.
  intros (pre' & post' & c & lo & hi & chk & -> & Hc & Hwf).
  exists (pre ++ pre'), (post' ++ post), c, lo, hi, chk.
  repeat split; try assumption; try apply Hwf.
  now rewrite <- !app_assoc.
Qed.

Lemma drain_log_valid (fuel : nat) :
  forall (log : list frame) (buffer : bytes) log' r,
    drain_with log_frame log_say fuel log buffer = Some (log', r) ->
    exists new,
      log' = log ++ new /\
      Forall (valid_in buffer) new /\
      forall left, r = Ok left -> exists consumed, buffer = consumed ++ left.
Proof.
  induction fuel as [|fuel IH]; intros log buffer log' r; cbn [drain_with];
    [discriminate|].
  destruct (parse_frame_cases buffer) as (res & rest & out & -> & Hcase).
  destruct (parse_case_suffix _ _ _ _ Hcase) as [consumed Hsplit].
  destruct res as [[cmd frame_data]|].
  - intros H. apply IH in H as (new & -> & Hnew & Hleft).
    exists ((cmd, frame_data) :: new). unfold log_say, log_frame.
    split; [now rewrite <- app_assoc|]. split.
    + constructor; [eapply parse_case_valid; eassumption|].
      rewrite Hsplit. eapply Forall_impl; [|exact Hnew].
      intros f Hf. rewrite <- (app_nil_r rest). now apply valid_in_app.
    + intros left Hr. destruct (Hleft left Hr) as [consumed' ->].
      exists (consumed ++ consumed'). now rewrite Hsplit, <- app_assoc.
  - intros [= <- <-]. exists []. unfold log_say.
    split; [now rewrite app_nil_r|]. split; [constructor|].
    intros left [= <-]. eauto.
Qed.

Lemma rx_log_valid (reads : list read_outcome) :
  forall (log : list frame) (seen buffer : bytes) log',
    (exists consumed, seen = consumed ++ buffer) ->
    rx_loop_with log_frame log_say log buffer reads = Some log' ->
    exists new, log' = log ++ new /\ Forall (valid_in (seen ++ stream reads)) new.
Proof.
  induction reads as [|[data|still_running] reads IH];
    intros log seen buffer log' [consumed Hseen]; cbn [rx_loop_with stream].
  - intros [= <-]. exists []. now rewrite app_nil_r.
  - destruct data as [|x data].
    + intros H. eapply IH; [|exact H]. eauto.
    + destruct (drain_with log_frame log_say _ log (buffer ++ x :: data))
        as [[log1 [left|e]]|] eqn:Hdrain; [| |discriminate].
      * apply drain_log_valid in Hdrain as (new1 & -> & Hnew1 & Hleft).
        destruct (Hleft left eq_refl) as [consumed1 Hsplit].
        intros H.
        apply (IH _ (seen ++ x :: data) left) in H as (new2 & -> & Hnew2).
        2:{ exists (consumed ++ consumed1). now rewrite Hseen, <- !app_assoc, Hsplit. }
        exists (new1 ++ new2). split; [now rewrite <- app_assoc|].
        apply Forall_app. split.
        -- eapply Forall_impl; [|exact Hnew1]. intros f Hf.
           replace (seen ++ (x :: data) ++ stream reads)
             with (consumed ++ (buffer ++ x :: data) ++ stream reads)
             by (subst seen; now rewrite <- !app_assoc).
           now apply valid_in_app.
        -- now rewrite <- app_assoc in Hnew2.
      * apply drain_log_valid in Hdrain as (new1 & -> & Hnew1 & _).
        intros [= <-]. exists new1. split; [reflexivity|].
        eapply Forall_impl; [|exact Hnew1]. intros f Hf.
        replace (seen ++ (x :: data) ++ stream reads)
          with (consumed ++ (buffer ++ x :: data) ++ stream reads)
          by (subst seen; now rewrite <- !app_assoc).
        now apply valid_in_app.
  - intros H. exists []. rewrite app_nil_r.
    split; [|constructor]. destruct still_running; now injection H.
Qed.

(** ** What the checksum detects *)


Lemma pow2_lt_256 (k : nat) : k < 8 -> (2 ^ N.of_nat k < 256)%N.
Proof.
  intros Hk. change 256%N with (2 ^ 8)%N. apply N.pow_lt_mono_r; lia.
Qed.

Lemma to_N_flip_bit (k : nat) (b : byte) :
  k < 8 -> Byte.to_N (flip_bit k b) = N.lxor (Byte.to_N b) (2 ^ N.of_nat k).
Proof.
  intros Hk. unfold flip_bit.
  destruct (of_N_some (N.lxor (Byte.to_N b) (2 ^ N.of_nat k))) as (b' & -> & Hb').
  - apply lxor_lt_256; [apply to_N_lt_256 | now apply pow2_lt_256].
  - exact Hb'.
Qed.

Lemma calc_checksum_flip_at (i k : nat) (data : bytes) :
  i < length data -> k < 8 ->
  calc_checksum (flip_at i k data) = N.lxor (calc_checksum data) (2 ^ N.of_nat k).
Proof.
  intros Hi Hk. revert i Hi.
  induction data as [|x data IH]; intros i Hi; cbn in Hi; [lia|].
  destruct i as [|i]; cbn [flip_at]; rewrite !calc_checksum_cons.
  - rewrite to_N_flip_bit by assumption.
    rewrite !N.lxor_assoc. f_equal. apply N.lxor_comm.
  - rewrite IH by lia. now rewrite N.lxor_assoc.
Qed.

Lemma lxor_pow2_changes (x : N) (k : nat) : N.lxor x (2 ^ N.of_nat k) <> x.
Proof.
  intros H.
  assert (E : N.lxor x (N.lxor x (2 ^ N.of_nat k)) = N.lxor x x) by now rewrite H.
  rewrite <- N.lxor_assoc, N.lxor_nilpotent, N.lxor_0_l in E.
  pose proof (N.pow_nonzero 2 (N.of_nat k)). lia.
Qed.


Lemma length_flip_at (i k : nat) (b : bytes) : length (flip_at i k b) = length b.
Proof.
  revert i. induction b as [|x b IH]; intros i; [now destruct i|].
  destruct i; cbn; auto.
Qed.

(** ** Two receivers on the same input *)

Lemma parse_case_prints (buffer : bytes) res rest out :
  parse_case buffer res rest out -> Forall rx_message out.
Proof.
  intros []; constructor; [|constructor]. right. eauto.
Qed.

Section Simulation.

Context {T U : Type}.
Context (handle1 : T -> N -> bytes -> T) (say1 : T -> list message -> T).
Context (handle2 : U -> N -> bytes -> U) (say2 : U -> list message -> U).
Context (R : T -> U -> Prop).
Hypothesis handle_related :
  forall t u cmd data, R t u -> R (handle1 t cmd data) (handle2 u cmd data).
Hypothesis say_related :
  forall t u out, Forall rx_message out -> R t u -> R (say1 t out) (say2 u out).

Lemma drain_with_related (fuel : nat) :
  forall t u buffer t' r,
    R t u ->
    drain_with handle1 say1 fuel t buffer = Some (t', r) ->
    exists u', drain_with handle2 say2 fuel u buffer = Some (u', r) /\ R t' u'.
Proof.
  induction fuel as [|fuel IH]; intros t u buffer t' r HR; cbn [drain_with];
    [discriminate|].
  destruct (parse_frame_cases buffer) as (res & rest & out & -> & Hcase).
  pose proof (parse_case_prints _ _ _ _ Hcase) as Hout.
  destruct res as [[cmd frame_data]|].
  - apply IH. auto.
  - intros [= <- <-]. eauto.
Qed.

Lemma rx_loop_with_related (reads : list read_outcome) :
  forall t u buffer t',
    R t u ->
    rx_loop_with handle1 say1 t buffer reads = Some t' ->
    exists u', rx_loop_with handle2 say2 u buffer reads = Some u' /\ R t' u'.
Proof.
  induction reads as [|[data|still_running] reads IH]; intros t u buffer t' HR;
    cbn [rx_loop_with].
  - intros [= <-]. eauto.
  - destruct data as [|x data]; [now apply IH|].
    destruct (drain_with handle1 say1 _ t (buffer ++ x :: data))
      as [[t1 r]|] eqn:Hdrain; [|discriminate].
    destruct (drain_with_related _ _ _ _ _ _ HR Hdrain) as (u1 & -> & HR1).
    destruct r as [left|e]; [now apply IH|].
    intros [= <-]. eexists. split; [reflexivity|].
    apply say_related; [repeat constructor | assumption].
  - intros [= <-]. destruct still_running; eexists; (split; [reflexivity|]); auto.
    apply say_related; [repeat constructor | assumption].
Qed.

End Simulation.

(** A property of the receiver kept by [handle] and [say] holds at the end. *)
Lemma rx_loop_with_invariant {T : Type}
    (handle : T -> N -> bytes -> T) (say : T -> list message -> T) (P : T -> Prop) :
  (forall t cmd data, P t -> P (handle t cmd data)) ->
  (forall t out, Forall rx_message out -> P t -> P (say t out)) ->
  forall reads t buffer t',
    P t -> rx_loop_with handle say t buffer reads = Some t' -> P t'.
Proof.
  intros Hh Hs reads t buffer t' HP Hrx.
  destruct (rx_loop_with_related handle say handle say (fun a _ => P a))
    with (reads := reads) (t := t) (u := t) (buffer := buffer) (t' := t')
    as (u' & _ & H); auto.
Qed.

Lemma emit_rx_effects (base : list event) (t : tool) (es : list event) :
  (exists new, effects t = base ++ new /\ Forall rx_effect new) ->
  Forall rx_effect es ->
  exists new, effects (emit t es) = base ++ new /\ Forall rx_effect new.
Proof.
  intros (new & He & Hnew) Hes. exists (new ++ es). cbn [effects emit].
  split; [now rewrite He, <- app_assoc | now apply Forall_app].
Qed.

Lemma print_rx_effect (m : message) : m <> MsgNoAudioData -> rx_effect (Print m).
Proof. intros Hm. split; [reflexivity | congruence]. Qed.

Lemma rx_loop_frame (self self' : tool) (reads : list read_outcome) :
  rx_loop self reads = Some self' ->
  serial self' = serial self /\
  running self' = running self /\
  exists new, effects self' = effects self ++ new /\ Forall rx_effect new.
Proof.
  intros Hrx.
  apply (rx_loop_with_invariant handle_frame say_tool
           (fun t => serial t = serial self /\ running t = running self /\
                     exists new, effects t = effects self ++ new /\ Forall rx_effect new))
    in Hrx; [exact Hrx | | |].
  - intros t cmd data (Hs & Hr & He). unfold handle_frame.
    destruct (N.eqb cmd CMD_AUDIO_DATA); [|destruct (N.eqb cmd CMD_ACK); [destruct data|]];
      (split; [exact Hs|]); (split; [exact Hr|]); try exact He;
      apply emit_rx_effects; try exact He;
      constructor; try constructor; now apply print_rx_effect.
  - intros t out Hout (Hs & Hr & He). unfold say_tool.
    split; [exact Hs|]. split; [exact Hr|].
    apply emit_rx_effects; [exact He|].
    induction Hout as [|m out Hm _ IH]; cbn [map]; constructor; [|exact IH].
    apply print_rx_effect. destruct Hm as [->|(a & b & ->)]; discriminate.
  - repeat split. exists []. split; [now rewrite app_nil_r | constructor].
Qed.

Lemma rx_loop_audio_data (self self' : tool) (reads : list read_outcome) :
  rx_loop self reads = Some self' ->
  exists frames,
    rx_dispatched reads = Some frames /\
    audio_data self' = audio_data self ++ concat (map audio_payload frames).
Proof.
  intros Hrx. unfold rx_loop in Hrx.
  destruct (rx_loop_with_related handle_frame say_tool log_frame log_say
              (fun t log =>
                 audio_data t = audio_data self ++ concat (map audio_payload log)))
    with (reads := reads) (t := self) (u := @nil frame) (buffer := @nil byte) (t' := self')
    as (frames & Hlog & HR); auto.
  - intros t log cmd data HR. unfold handle_frame, log_frame.
    rewrite map_app, concat_app. cbn [map concat]. unfold audio_payload at 2.
    cbn [fst snd]. rewrite app_nil_r.
    destruct (N.eqb cmd CMD_AUDIO_DATA).
    + cbn [audio_data emit set_audio_data]. now rewrite HR, app_assoc.
    + rewrite app_nil_r.
      destruct (N.eqb cmd CMD_ACK); [destruct data|]; exact HR.
  - cbn. now rewrite app_nil_r.
  - exists frames. auto.
Qed.

(** ** Dispatch *)

(** C6: for every inbound byte stream the receive loop comes to an end,
    and every (command, payload) pair it hands to the frame handler stands
    in the stream after a header, with its length in the length field and
    followed by a checksum byte equal to the XOR of command, length bytes
    and payload; the audio accumulator grows by the payloads of the
    audio-data frames among them and by nothing else. *)
Theorem rx_loop_dispatches_valid_frames :
  forall reads : list read_outcome,
    exists frames,
      rx_dispatched reads = Some frames /\
      (forall cmd data,
        In (cmd, data) frames ->
        exists pre post c lo hi chk,
          stream reads = pre ++ wire c lo hi data chk ++ post /\
          cmd = Byte.to_N c /\
          length data = announced lo hi /\
          Byte.to_N chk = calc_checksum (c :: lo :: hi :: data)) /\
      (forall self, exists self',
          rx_loop self reads = Some self' /\
          audio_data self' = audio_data self ++ concat (map audio_payload frames)).
Proof.
  intros reads. unfold rx_dispatched.
  destruct (rx_loop_with_total log_frame log_say reads [] []) as [frames Hrx].
  exists frames. split; [exact Hrx|]. split.
  2:{ intros self. destruct (rx_loop_total self reads) as [self' Hself].
      exists self'. split; [exact Hself|].
      destruct (rx_loop_audio_data _ _ _ Hself) as (frames' & Hframes' & Hacc).
      unfold rx_dispatched in Hframes'. congruence. }
  intros cmd data Hin.
  destruct (rx_log_valid reads [] [] [] frames) as (new & -> & Hvalid);
    [now exists [] | exact Hrx |].
  cbn [app] in Hin, Hvalid. rewrite Forall_forall in Hvalid.
  destruct (Hvalid _ Hin) as (pre & post & c & lo & hi & chk & Hs & Hc & Hlen & Hchk).
  cbn [fst snd] in *. exists pre, post, c, lo, hi, chk. auto.
Qed.

(** A frame with a bad checksum between two valid ones is passed over.  The
    inner loop stops at the bad checksum, so the frame behind it is
    dispatched once the next bytes have arrived. *)
Example rx_dispatched_skips_corrupt :
  rx_dispatched
    [ ReadData [xaa; x55; x06; x00; x00; x06; xaa; x55; x03];
      ReadData [x01; x00; x10; xff; xaa; x55; x03; x01; x00; x10; x12] ]
  = Some [(CMD_HANDSHAKE, [])] /\
  rx_dispatched
    [ ReadData [xaa; x55; x06; x00; x00; x06; xaa; x55; x03];
      ReadData [x01; x00; x10; xff; xaa; x55; x03; x01; x00; x10; x12];
      ReadData [x00] ]
  = Some [(CMD_HANDSHAKE, []); (CMD_AUDIO_DATA, [x10])].
Proof. split; reflexivity. Qed.

(** ** Sending *)

Lemma send_frame_ok (self : tool) (cmd : N) (data : bytes) :
  (cmd < 256)%N -> length data <= 255 + 256 * 255 ->
  exists sent self2,
    send_frame self cmd data = Ok (sent, self2) /\
    running self2 = running self /\
    audio_data self2 = audio_data self /\
    effects self2 = effects self /\
    (serial self = None -> serial self2 = None) /\
    (forall written,
        serial self = Some written ->
        exists w, build_frame cmd data = Ok w /\ serial self2 = Some (written ++ [w])).
Proof.
  intros Hcmd Hlen. unfold send_frame.
  destruct (serial self) as [written|] eqn:Hs.
  - destruct (build_frame_wire cmd data Hcmd Hlen) as (c & lo & hi & chk & E & _).
    rewrite E. cbn [bind]. do 2 eexists. split; [reflexivity|].
    cbn [running audio_data effects serial set_serial].
    repeat split; try discriminate.
    intros written' [= <-]. eauto.
  - do 2 eexists. split; [reflexivity|]. rewrite Hs.
    repeat split; discriminate.
Qed.

Lemma filter_rx_effects (new : list event) :
  Forall rx_effect new ->
  filter is_wav_write new = [] /\ ~ In (Print MsgNoAudioData) new.
Proof.
  induction 1 as [|e new [He Hne] _ [IH1 IH2]]; [split; [reflexivity | intros []]|].
  cbn [filter In]. rewrite He. split; [exact IH1|].
  intros [H|H]; [now apply Hne | now apply IH2].
Qed.

(** ** Playing *)

Lemma firstn_add {A : Type} (a b : nat) (l : list A) :
  firstn (a + b) l = firstn a l ++ firstn b (skipn a l).
Proof.
  revert l. induction a as [|a IH]; intros l; [reflexivity|].
  destruct l as [|x l]; cbn [Nat.add firstn skipn app].
  - now rewrite firstn_nil.
  - now rewrite IH.
Qed.

Lemma slice_chunk (frames : bytes) (i size : nat) :
  Py.slice frames i (i + size) = firstn size (skipn i frames).
Proof. unfold Py.slice. now replace (i + size - i) with size by lia. Qed.

Lemma concat_slices (frames : bytes) (size m : nat) :
  concat (map (fun i => Py.slice frames i (i + size))
              (map (fun k => k * size) (seq 0 m)))
  = firstn (m * size) frames.
Proof.
  induction m as [|m IH]; [reflexivity|].
  rewrite seq_S, !map_app, concat_app, IH. cbn [map concat Nat.add].
  rewrite app_nil_r, slice_chunk.
  replace (S m * size) with (m * size + size) by lia.
  now rewrite firstn_add.
Qed.

Lemma concat_chunks (frames : bytes) (size : nat) :
  0 < size -> concat (chunks frames size) = frames.
Proof.
  intros Hsize. unfold chunks, Py.range_step. rewrite concat_slices.
  apply firstn_all2. nia.
Qed.

Lemma length_chunks (frames : bytes) (size : nat) :
  length (chunks frames size) = (length frames + size - 1) / size.
Proof. unfold chunks, Py.range_step. now rewrite !length_map, length_seq. Qed.



Lemma length_chunk_le (frames : bytes) (i size : nat) :
  length (Py.slice frames i (i + size)) <= size.
Proof. rewrite slice_chunk, length_firstn. lia. Qed.

Lemma for_each_send_chunk (frames : bytes) (size total : nat) (mp3 : bool) :
  size <= 1024 ->
  forall (indices : list nat) (self : tool) (written : list bytes),
    serial self = Some written ->
    exists self' sent,
      for_each (send_chunk frames size total mp3) indices self = Ok self' /\
      serial self' = Some (written ++ sent) /\
      running self' = running self /\
      audio_data self' = audio_data self /\
      Forall2 (fun chunk w => build_frame CMD_AUDIO_DATA chunk = Ok w)
              (map (fun i => Py.slice frames i (i + size)) indices) sent.
Proof.
  intros Hsize. induction indices as [|i indices IH]; intros self written Hs.
  - exists self, []. cbn [for_each map]. rewrite app_nil_r. repeat split; auto.
  - cbn [for_each map]. unfold send_chunk at 1.
    destruct (send_frame_ok self CMD_AUDIO_DATA (Py.slice frames i (i + size)))
      as (b & self1 & -> & Hr1 & Ha1 & _ & _ & Hw);
      [reflexivity | pose proof (length_chunk_le frames i size); lia |].
    destruct (Hw written Hs) as (w & Hbuild & Hs1).
    cbn [bind snd].
    destruct (IH (emit self1 [Print (MsgProgress (i / size + 1) total);
                              Sleep (if mp3 then 10%N else 20%N)])
                 (written ++ [w])) as (self' & sent & -> & Hs' & Hr' & Ha' & Hall);
      [exact Hs1|].
    exists self', (w :: sent). split; [reflexivity|].
    split; [now rewrite Hs', <- app_assoc|].
    split; [now rewrite Hr'|]. split; [now rewrite Ha'|].
    now constructor.
Qed.



(** A three-byte MP3 source: one audio-data frame between the control
    frames. *)
Example play_audio_small_mp3 :
  exists self',
    play_audio (mkTool (Some []) false [] []) "sound.mp3"
      (Some ([x01; x02; x03], 0%N, 0%N, 0%N, AUDIO_FORMAT_MP3)) []
    = Some (Ok self') /\
    serial self'
    = Some [ [xaa; x55; x08; x01; x00; x01; x08];
             [xaa; x55; x04; x00; x00; x04];
             [xaa; x55; x03; x03; x00; x01; x02; x03; x00];
             [xaa; x55; x05; x00; x00; x05] ].
Proof. eexists. split; reflexivity. Qed.

Lemma rx_loop_dispatches_valid_frames_witness :
  exists pre post c lo hi chk,
    stream [ReadData [x00; xaa; x55; x03]; ReadData [x01; x00; x10; x12; x09]]
    = pre ++ wire c lo hi [x10] chk ++ post /\
    3%N = Byte.to_N c /\
    length [x10] = announced lo hi /\
    Byte.to_N chk = calc_checksum (c :: lo :: hi :: [x10]).
Proof.
  destruct (rx_loop_dispatches_valid_frames
              [ReadData [x00; xaa; x55; x03]; ReadData [x01; x00; x10; x12; x09]])
    as (frames & Hrx & Hvalid & _).
  apply Hvalid. vm_compute in Hrx. injection Hrx as <-. left. reflexivity.
Defined.

Lemma parse_frame_consumes_prefix_witness :
  exists n left,
    drain_iterations 9
      [xaa; x55; x06; x00; x00; x06; xaa; x55; x06; x00; x00; x06; xaa] = Some (n, Ok left) /\
    n <= length [xaa; x55; x06; x00; x00; x06; xaa; x55; x06; x00; x00; x06; xaa] / 6 + 1.
Proof.
  apply (proj1 (proj2 (parse_frame_consumes_prefix
           [xaa; x55; x06; x00; x00; x06; xaa; x55; x06; x00; x00; x06; xaa])) 9).
  vm_compute. lia.
Defined.

(** Two whole frames and a lone byte: three iterations, the bound. *)
Example drain_iterations_reaches_bound :
  drain_iterations 9 [xaa; x55; x06; x00; x00; x06; xaa; x55; x06; x00; x00; x06; xaa]
  = Some (3, Ok [xaa]).
Proof. reflexivity. Qed.

(** A flipped bit in the length field moves the place where the parser
    looks for the checksum byte: here it finds a byte that matches, and a
    shorter frame is accepted. *)
Example flipped_length_bit_accepted :
  build_frame 1 [x01] = Ok [xaa; x55; x01; x01; x00; x01; x01] /\
  flip_at 3 0 [xaa; x55; x01; x01; x00; x01; x01]
  = [xaa; x55; x01; x00; x00; x01; x01] /\
  parse_frame [xaa; x55; x01; x00; x00; x01; x01] = Ok (Some (1%N, []), [x01], []).
Proof. repeat split. Qed.

(** * Further properties of the parser *)

Lemma parse_frame_short (buffer : bytes) (idx : nat) :
  Py.find buffer FRAME_HEADER = Some idx ->
  length (skipn idx buffer) < 6 ->
  parse_frame buffer = Ok (None, skipn idx buffer, []).
Proof.
  intros Hfind Hshort. unfold parse_frame. rewrite Hfind.
  change (Py.slice_from buffer idx) with (skipn idx buffer).
  destruct (Nat.ltb_spec (length (skipn idx buffer)) 6); [reflexivity | lia].
Qed.

Lemma parse_frame_incomplete (buffer : bytes) (idx : nat) c lo hi tl :
  Py.find buffer FRAME_HEADER = Some idx ->
  skipn idx buffer = xaa :: x55 :: c :: lo :: hi :: tl ->
  length tl < announced lo hi + 1 ->
  parse_frame buffer = Ok (None, skipn idx buffer, []).
Proof.
  intros Hfind Hskip Hinc.
  destruct (Nat.ltb_spec (length (skipn idx buffer)) 6) as [Hshort|Hlong];
    [now apply parse_frame_short|].
  unfold parse_frame. rewrite Hfind.
  change (Py.slice_from buffer idx) with (skipn idx buffer). rewrite Hskip in *.
  rewrite length_frame_buffer in *.
  destruct (Nat.ltb_spec (5 + length tl) 6) as [H|_]; [lia|].
  rewrite index_command, slice_length_field.
  cbn [bind Struct.unpack_H]. fold (announced lo hi).
  destruct (Nat.ltb_spec (5 + length tl) (5 + announced lo hi + 1)) as [_|H];
    [reflexivity | lia].
Qed.

Lemma find_short (b : bytes) : length b < 2 -> Py.find b FRAME_HEADER = None.
Proof.
  intros Hb. destruct b as [|x [|y b]]; cbn in Hb; try lia; [reflexivity|].
  unfold Py.find. cbn [Py.find_from Py.startswith FRAME_HEADER].
  now rewrite andb_false_r.
Qed.

(** The parser waits on every proper prefix of an encoded frame. *)
Lemma parse_frame_strict_prefix (cmd : N) (payload p q : bytes) :
  build_frame cmd payload = Ok (p ++ q) ->
  q <> [] ->
  parse_frame p = Ok (None, p, []).
Proof.
  intros Hgood Hq.
  destruct (build_frame_inv _ _ _ Hgood) as (c & lo & hi & chk & Hw & _ & Hlen & _).
  unfold wire in Hw.
  destruct p as [|a0 [|a1 p]].
  - reflexivity.
  - cbn [app] in Hw. injection Hw as -> _. reflexivity.
  - cbn [app] in Hw. injection Hw as -> -> Hw.
    assert (Hfind : Py.find (xaa :: x55 :: p) FRAME_HEADER = Some 0)
      by apply (find_at_start FRAME_HEADER p).
    destruct (Nat.ltb_spec (length (xaa :: x55 :: p)) 6) as [Hshort|Hlong].
    + now apply (parse_frame_short _ 0 Hfind).
    + destruct p as [|c' [|lo' [|hi' tl]]]; cbn [length] in Hlong; try lia.
      cbn [app] in Hw. injection Hw as -> -> -> Hw.
      apply (parse_frame_incomplete _ 0 c lo hi tl Hfind eq_refl).
      apply (f_equal (@length byte)) in Hw. rewrite !length_app in Hw.
      cbn [length] in Hw. destruct q; [contradiction | cbn [length] in Hw; lia].
Qed.

Lemma find_from_at_start (sub rest : bytes) (i : nat) :
  Py.find_from i (sub ++ rest) sub = Some i.
Proof.
  assert (E : Py.startswith (sub ++ rest) sub = true)
    by (apply startswith_spec; now exists rest).
  destruct (sub ++ rest); cbn [Py.find_from]; now rewrite E.
Qed.

Lemma find_from_after_garbage (garbage rest : bytes) :
  forall i,
    ~ occurs FRAME_HEADER (garbage ++ [xaa]) ->
    Py.find_from i (garbage ++ FRAME_HEADER ++ rest) FRAME_HEADER
    = Some (i + length garbage).
Proof.
  induction garbage as [|x garbage IH]; intros i Hno.
  - cbn [app length]. rewrite find_from_at_start. f_equal. lia.
  - cbn [app length Py.find_from].
    destruct (Py.startswith (x :: garbage ++ FRAME_HEADER ++ rest) FRAME_HEADER) eqn:E.
    + exfalso. apply Hno. cbn [Py.startswith FRAME_HEADER] in E.
      destruct garbage as [|y garbage]; cbn [app] in E |- *;
        apply andb_true_iff in E as [E1 E2]; apply andb_true_iff in E2 as [E2 _];
        apply Byte.byte_dec_bl in E1, E2.
      * discriminate.
      * subst. exists [], (garbage ++ [xaa]). reflexivity.
    + rewrite IH.
      * f_equal. lia.
      * intros (pre & post & H). apply Hno. exists (x :: pre), post.
        cbn [app]. now rewrite H.
Qed.

Lemma find_after_garbage (garbage rest : bytes) :
  ~ occurs FRAME_HEADER (garbage ++ [xaa]) ->
  Py.find (garbage ++ FRAME_HEADER ++ rest) FRAME_HEADER = Some (length garbage).
Proof. intros Hno. unfold Py.find. now rewrite find_from_after_garbage. Qed.

(** X1: [parse_frame] raises on no buffer: the two length checks keep every
    index and slice it takes in range, and the call ends in one of the five
    ways of [parse_case], returning a buffer no longer than the one it was
    given. *)
Theorem parse_frame_never_raises :
  forall buffer : bytes,
    exists res rest out,
      parse_frame buffer = Ok (res, rest, out) /\
      parse_case buffer res rest out /\
      length rest <= length buffer.
Proof.
  intros buffer.
  destruct (parse_frame_cases buffer) as (res & rest & out & H & Hcase).
  exists res, rest, out. split; [exact H|]. split; [exact Hcase|].
  destruct (parse_case_suffix _ _ _ _ Hcase) as [consumed ->].
  rewrite length_app. lia.
Qed.

(** X2: bytes in front of a frame are discarded: when the header marker does
    not occur in the leading bytes followed by AA, the parser yields the
    encoded frame behind them and returns what follows it. *)
Theorem parse_frame_skips_garbage :
  forall (garbage trailing good : bytes) (cmd : N) (payload : bytes),
    build_frame cmd payload = Ok good ->
    ~ occurs FRAME_HEADER (garbage ++ [xaa]) ->
    parse_frame (garbage ++ good ++ trailing) = Ok (Some (cmd, payload), trailing, []).
Proof.
  intros garbage trailing good cmd payload Hgood Hno.
  destruct (build_frame_inv _ _ _ Hgood) as (c & lo & hi & chk & Hw & _).
  apply parse_frame_found with (k := length garbage) (good := good); [exact Hgood | |].
  - rewrite Hw. unfold wire.
    change (garbage ++ (xaa :: x55 :: c :: lo :: hi :: payload ++ [chk]) ++ trailing)
      with (garbage ++ FRAME_HEADER ++ ((c :: lo :: hi :: payload ++ [chk]) ++ trailing)).
    now apply find_after_garbage.
  - apply skipn_exact.
Qed.

Lemma parse_frame_skips_garbage_witness :
  parse_frame ([x55; x00; xaa; xaa] ++ [xaa; x55; x03; x01; x00; x10; x12] ++ [x55])
  = Ok (Some (3%N, [x10]), [x55], []).
Proof.
  apply parse_frame_skips_garbage.
  - reflexivity.
  - apply find_none. reflexivity.
Defined.

(** X3: when [parse_frame] reports no frame and prints nothing, it has
    nothing more to take from the buffer it returns: called again on that
    buffer it returns it unchanged, until bytes are appended. *)
Theorem parse_frame_waits :
  forall buffer rest : bytes,
    parse_frame buffer = Ok (None, rest, []) ->
    parse_frame rest = Ok (None, rest, []).
Proof.
  intros buffer rest H. apply parse_frame_inv in H.
  inversion H as [Hf | idx Hf Hshort | idx c lo hi tl Hf Hskip Hinc | |]; subst.
  - assert (Hlen : length (Py.slice_last buffer) < 2).
    { unfold Py.slice_last. rewrite length_skipn. lia. }
    unfold parse_frame. rewrite (find_short _ Hlen).
    destruct (Py.slice_last buffer) as [|x [|y l]]; cbn in Hlen; try lia; reflexivity.
  - destruct (find_some _ _ _ Hf) as (_ & tl0 & Hskip).
    apply (parse_frame_short _ 0); [|exact Hshort].
    rewrite Hskip. apply find_at_start.
  - apply (parse_frame_incomplete _ 0 c lo hi tl); [|exact Hskip | exact Hinc].
    rewrite Hskip. apply (find_at_start FRAME_HEADER).
Qed.

Lemma parse_frame_waits_witness :
  parse_frame [xaa; x55; x03; x02; x00; x10] = Ok (None, [xaa; x55; x03; x02; x00; x10], []).
Proof.
  apply (parse_frame_waits [x09; x08; xaa; x55; x03; x02; x00; x10]). reflexivity.
Defined.

(** ** Further properties of the codec *)

(** X4: on a closed port [send_frame] returns [False] and touches nothing,
    whatever its arguments; on an open port it writes one frame of
    [len(data) + 6] bytes when the command fits a byte and the payload the
    16-bit length field; otherwise the frame cannot be built: packing it
    raises [struct.error], and that is the outcome of [send_frame]. *)
Theorem send_frame_outcome :
  forall (self : tool) (cmd : N) (data : bytes),
    (serial self = None -> send_frame self cmd data = Ok (false, self)) /\
    (forall written,
        serial self = Some written ->
        ((cmd < 256)%N /\ length data <= 65535 ->
         exists g,
           send_frame self cmd data
           = Ok (true, set_serial self (Some (written ++ [g]))) /\
           length g = length data + 6) /\
        (~ ((cmd < 256)%N /\ length data <= 65535) ->
         build_frame cmd data = Raise StructError /\
         send_frame self cmd data = Raise StructError)).
Proof.
  intros self cmd data. split.
  - intros Hs. unfold send_frame. now rewrite Hs.
  - intros written Hs. change 65535 with (255 + 256 * 255).
    unfold send_frame. rewrite Hs. split.
    + intros [Hcmd Hlen].
      destruct (build_frame_wire cmd data Hcmd Hlen) as (c & lo & hi & chk & -> & _).
      eexists. split; [reflexivity|].
      unfold wire. cbn [length]. rewrite length_app. cbn [length]. lia.
    + intros Hbad.
      assert (Hbuild : build_frame cmd data = Raise StructError).
      { unfold build_frame, Struct.pack_2sBH, Struct.pack_B, Struct.pack_H.
        destruct (Byte.of_N cmd) as [c|] eqn:Ec; [|reflexivity].
        cbn [bind].
        destruct (Nat.leb_spec (length data) (255 + 256 * 255)) as [Hlen|_];
          [|reflexivity].
        exfalso. apply Hbad. split; [|exact Hlen].
        apply Byte.to_of_N in Ec. rewrite <- Ec. apply to_N_lt_256. }
      split; [exact Hbuild|]. now rewrite Hbuild.
Qed.

Lemma send_frame_outcome_witness :
  send_frame (mkTool None true [] []) 300 [x01] = Ok (false, mkTool None true [] []) /\
  build_frame 300 [x01] = Raise StructError /\
  send_frame (mkTool (Some []) true [] []) 300 [x01] = Raise StructError.
Proof.
  split.
  - apply (proj1 (send_frame_outcome (mkTool None true [] []) 300 [x01])). reflexivity.
  - apply (proj2 (send_frame_outcome (mkTool (Some []) true [] []) 300 [x01]) []).
    + reflexivity.
    + intros [H _]. vm_compute in H. discriminate.
Defined.

(** X5: the encoding is injective: two (command, payload) pairs with the
    same encoding are the same pair. *)
Theorem build_frame_injective :
  forall (cmd1 cmd2 : N) (payload1 payload2 g : bytes),
    build_frame cmd1 payload1 = Ok g ->
    build_frame cmd2 payload2 = Ok g ->
    cmd1 = cmd2 /\ payload1 = payload2.
Proof.
  intros cmd1 cmd2 payload1 payload2 g H1 H2.
  assert (Hfind : Py.find (g ++ []) FRAME_HEADER = Some 0).
  { destruct (build_frame_inv _ _ _ H1) as (c & lo & hi & chk & -> & _).
    apply (find_at_start FRAME_HEADER). }
  pose proof (parse_frame_found (g ++ []) 0 _ _ _ [] H1 Hfind eq_refl) as P1.
  pose proof (parse_frame_found (g ++ []) 0 _ _ _ [] H2 Hfind eq_refl) as P2.
  rewrite P1 in P2. now injection P2.
Qed.

Lemma build_frame_injective_witness :
  3%N = 3%N /\ [x10; x20] = [x10; x20].
Proof.
  apply (build_frame_injective 3 3 [x10; x20] [x10; x20]
           [xaa; x55; x03; x02; x00; x10; x20; x31]); reflexivity.
Defined.

Lemma calc_checksum_permutation (a b : bytes) :
  Permutation a b -> calc_checksum a = calc_checksum b.
Proof.
  induction 1 as [|x a b _ IH|x y a|a b c _ IH1 _ IH2].
  - reflexivity.
  - now rewrite !calc_checksum_cons, IH.
  - rewrite !calc_checksum_cons, <- !N.lxor_assoc. f_equal. apply N.lxor_comm.
  - congruence.
Qed.

(** X6: the checksum does not see the order of the bytes: an encoded frame
    whose payload bytes are put in any other order is still accepted by the
    parser, as a frame with the reordered payload. *)
Theorem parse_frame_accepts_reordered_payload :
  forall (cmd : N) (payload payload' good trailing : bytes),
    build_frame cmd payload = Ok good ->
    Permutation payload payload' ->
    exists c lo hi chk,
      good = wire c lo hi payload chk /\
      parse_frame (wire c lo hi payload' chk ++ trailing)
      = Ok (Some (cmd, payload'), trailing, []).
Proof.
  intros cmd payload payload' good trailing Hgood Hperm.
  destruct (build_frame_inv _ _ _ Hgood) as (c & lo & hi & chk & -> & <- & Hlen & Hchk).
  exists c, lo, hi, chk. split; [reflexivity|].
  rewrite (parse_frame_whole (wire c lo hi payload' chk ++ trailing) 0
             c lo hi payload' chk trailing).
  - rewrite Hchk.
    rewrite (calc_checksum_permutation (c :: lo :: hi :: payload)
                                       (c :: lo :: hi :: payload'))
      by (now repeat apply perm_skip).
    now rewrite N.eqb_refl.
  - apply (find_at_start FRAME_HEADER).
  - reflexivity.
  - rewrite <- Hlen. symmetry. now apply Permutation_length.
Qed.

Lemma parse_frame_accepts_reordered_payload_witness :
  exists c lo hi chk,
    [xaa; x55; x03; x02; x00; x10; x20; x31] = wire c lo hi [x10; x20] chk /\
    parse_frame (wire c lo hi [x20; x10] chk ++ []) = Ok (Some (3%N, [x20; x10]), [], []).
Proof.
  apply (parse_frame_accepts_reordered_payload 3 [x10; x20] [x20; x10]).
  - reflexivity.
  - apply perm_swap.
Defined.

(** * Further properties of the receive loop *)

(** ** A clean stream is reassembled *)

Lemma parse_frame_head (f : frame) (g rest : bytes) :
  encodes f g -> parse_frame (g ++ rest) = Ok (Some f, rest, []).
Proof.
  intros Hg. destruct f as [cmd payload]. unfold encodes in Hg. cbn [fst snd] in Hg.
  apply parse_frame_found with (k := 0) (good := g); [exact Hg | | reflexivity].
  destruct (build_frame_inv _ _ _ Hg) as (c & lo & hi & chk & -> & _).
  apply (find_at_start FRAME_HEADER).
Qed.

Lemma length_encoding (f : frame) (g : bytes) :
  encodes f g -> length g = 6 + length (snd f).
Proof.
  intros Hg. destruct (build_frame_inv _ _ _ Hg) as (c & lo & hi & chk & -> & _).
  unfold wire. cbn [length]. rewrite length_app. cbn [length]. lia.
Qed.

Lemma length_concat_encodings (fs : list frame) (goods : list bytes) :
  Forall2 encodes fs goods -> length (concat goods) = wire_size fs.
Proof.
  induction 1 as [|f g fs goods Hg _ IH]; [reflexivity|].
  cbn [concat]. unfold wire_size. cbn [map list_sum]. fold (wire_size fs).
  now rewrite length_app, IH, (length_encoding f g Hg).
Qed.

Lemma wire_size_ge (fs : list frame) : 6 * length fs <= wire_size fs.
Proof.
  induction fs as [|f fs IH]; [cbn; lia|].
  unfold wire_size in *. cbn [map length]. unfold list_sum in *.
  cbn [fold_right]. lia.
Qed.

Lemma split_prefix (goods : list bytes) :
  forall B Y : bytes,
    B ++ Y = concat goods ->
    exists goods1 goods2 p,
      goods = goods1 ++ goods2 /\ B = concat goods1 ++ p /\ waiting p goods2.
Proof.
  induction goods as [|g gs IH]; intros B Y HB.
  - cbn [concat] in HB. apply app_eq_nil in HB as [-> _].
    exists [], [], []. repeat split. now left.
  - cbn [concat] in HB. apply app_eq_app in HB as [l [[-> Hl]|[Hg HY]]].
    + destruct (IH l Y (eq_sym Hl)) as (goods1 & goods2 & p & -> & -> & Hw).
      exists (g :: goods1), goods2, p. cbn [concat app].
      repeat split; [now rewrite app_assoc | exact Hw].
    + destruct l as [|x l].
      * rewrite app_nil_r in Hg. subst g.
        exists [B], gs, []. cbn [concat app]. rewrite !app_nil_r.
        repeat split. now left.
      * exists [], (g :: gs), B. repeat split.
        right. exists g, gs, (x :: l). repeat split; [exact Hg | discriminate].
Qed.

Lemma waiting_quiet (fs : list frame) (goods : list bytes) (p : bytes) :
  Forall2 encodes fs goods -> waiting p goods ->
  parse_frame p = Ok (None, p, []).
Proof.
  intros Hall [->|(g & gs & q & -> & -> & Hq)]; [reflexivity|].
  inversion Hall as [|f g' fs' gs' Hf _]; subst.
  eapply parse_frame_strict_prefix; eassumption.
Qed.

Lemma drain_clean (fs : list frame) (goods : list bytes) :
  Forall2 encodes fs goods ->
  forall (p : bytes) (log : list frame) (fuel : nat),
    parse_frame p = Ok (None, p, []) ->
    length fs < fuel ->
    drain_with log_frame log_say fuel log (concat goods ++ p)
    = Some (log ++ fs, Ok p).
Proof.
  induction 1 as [|f g fs goods Hg _ IH]; intros p log fuel Hp Hfuel;
    (destruct fuel as [|fuel]; [cbn [length] in Hfuel; lia|]); cbn [drain_with concat].
  - cbn [app]. rewrite Hp. unfold log_say. now rewrite app_nil_r.
  - rewrite <- app_assoc, (parse_frame_head f g _ Hg).
    destruct f as [cmd data].
    rewrite IH by (assumption || (cbn [length] in Hfuel; lia)).
    unfold log_say, log_frame. now rewrite <- app_assoc.
Qed.

Lemma rx_clean (chunks : list bytes) :
  forall (b : bytes) (log fs : list frame) (goods : list bytes),
    Forall2 encodes fs goods ->
    b ++ concat chunks = concat goods ->
    waiting b goods ->
    rx_loop_with log_frame log_say log b (map ReadData chunks) = Some (log ++ fs).
Proof.
  induction chunks as [|d chunks IH]; intros b log fs goods Hall Hb Hw.
  - cbn [map rx_loop_with]. cbn [concat] in Hb. rewrite app_nil_r in Hb.
    destruct Hw as [->|(g & gs & q & -> & -> & Hq)].
    + pose proof (length_concat_encodings _ _ Hall) as Hlen.
      rewrite <- Hb in Hlen. cbn [length] in Hlen.
      pose proof (wire_size_ge fs). destruct fs; [now rewrite app_nil_r|].
      cbn [length] in *. lia.
    + exfalso. cbn [concat] in Hb. rewrite <- app_assoc in Hb.
      rewrite <- (app_nil_r b) in Hb at 1. apply app_inv_head in Hb.
      destruct q; [contradiction | discriminate].
  - cbn [map rx_loop_with]. destruct d as [|x d].
    + apply (IH b log fs goods Hall); [exact Hb | exact Hw].
    + cbn [concat] in Hb. rewrite app_assoc in Hb.
      destruct (split_prefix goods _ _ Hb) as (goods1 & goods2 & p & -> & HB & Hp).
      apply Forall2_app_inv_r in Hall as (fs1 & fs2 & Hall1 & Hall2 & ->).
      rewrite HB.
      rewrite (drain_clean fs1 goods1 Hall1 p log).
      * rewrite app_assoc. apply (IH p (log ++ fs1) fs2 goods2 Hall2); [|exact Hp].
        rewrite HB, concat_app, <- app_assoc in Hb. now apply app_inv_head in Hb.
      * eapply waiting_quiet; eassumption.
      * rewrite length_app, (length_concat_encodings _ _ Hall1).
        pose proof (wire_size_ge fs1). lia.
Qed.

Lemma stream_data (chunks : list bytes) : stream (map ReadData chunks) = concat chunks.
Proof. induction chunks as [|d chunks IH]; cbn [map stream concat]; congruence. Qed.

(** X7: a stream made of encoded frames and nothing else is reassembled
    whatever way it is cut into reads: the receive loop hands exactly those
    frames to the handler, in order, and the accumulator grows by the
    payloads of the audio-data frames among them. *)
Theorem rx_loop_reassembles :
  forall (fs : list frame) (goods chunks : list bytes),
    Forall2 encodes fs goods ->
    concat chunks = concat goods ->
    rx_dispatched (map ReadData chunks) = Some fs /\
    forall self, exists self',
      rx_loop self (map ReadData chunks) = Some self' /\
      audio_data self' = audio_data self ++ concat (map audio_payload fs).
Proof.
  intros fs goods chunks Hall Hcat.
  assert (Hrx : rx_dispatched (map ReadData chunks) = Some fs).
  { unfold rx_dispatched.
    apply (rx_clean chunks [] [] fs goods Hall); [exact Hcat | now left]. }
  split; [exact Hrx|].
  intros self. destruct (rx_loop_total self (map ReadData chunks)) as [self' Hself].
  exists self'. split; [exact Hself|].
  destruct (rx_loop_audio_data _ _ _ Hself) as (fs' & Hfs' & Hacc). congruence.
Qed.

Lemma rx_loop_reassembles_witness :
  rx_dispatched
    (map ReadData [[xaa]; [x55; x06; x00]; []; [x00; x06; xaa; x55; x03; x01]; [x00; x10; x12]])
  = Some [(CMD_HANDSHAKE, []); (CMD_AUDIO_DATA, [x10])].
Proof.
  apply (proj1 (rx_loop_reassembles
                  [(CMD_HANDSHAKE, []); (CMD_AUDIO_DATA, [x10])]
                  [[xaa; x55; x06; x00; x00; x06]; [xaa; x55; x03; x01; x00; x10; x12]]
                  [[xaa]; [x55; x06; x00]; []; [x00; x06; xaa; x55; x03; x01]; [x00; x10; x12]]
                  ltac:(repeat constructor) eq_refl)).
Defined.

(** ** Dispatched frames lie in the stream in order *)

Lemma carved_extend (bs : bytes) (fs : list frame) (left : bytes) :
  carved bs fs left -> forall d, carved (bs ++ d) fs (left ++ d).
Proof.
  induction 1 as [bs pre left ->|bs pre c lo hi data chk rest fs left -> Hwf _ IH];
    intros d.
  - apply carved_nil with (pre := pre). now rewrite app_assoc.
  - eapply carved_cons with (pre := pre) (rest := rest ++ d); [|exact Hwf | apply IH].
    now rewrite <- !app_assoc.
Qed.

Lemma carved_skip (bs : bytes) (fs : list frame) (left : bytes) :
  carved bs fs left -> forall pre, carved (pre ++ bs) fs left.
Proof.
  intros [bs' pre' left' ->|bs' pre' c lo hi data chk rest fs' left' -> Hwf Hc] pre.
  - apply carved_nil with (pre := pre ++ pre'). now rewrite app_assoc.
  - eapply carved_cons with (pre := pre ++ pre'); [|exact Hwf | exact Hc].
    now rewrite <- !app_assoc.
Qed.

Lemma carved_then (bs : bytes) (fs1 : list frame) (mid : bytes) :
  carved bs fs1 mid ->
  forall fs2 left, carved mid fs2 left -> carved bs (fs1 ++ fs2) left.
Proof.
  induction 1 as [bs pre mid ->|bs pre c lo hi data chk rest fs mid -> Hwf _ IH];
    intros fs2 left H2.
  - cbn [app]. now apply carved_skip.
  - cbn [app]. eapply carved_cons; [reflexivity | exact Hwf | now apply IH].
Qed.

Lemma carved_size (bs : bytes) (fs : list frame) (left : bytes) :
  carved bs fs left -> wire_size fs + length left <= length bs.
Proof.
  induction 1 as [bs pre left ->|bs pre c lo hi data chk rest fs left -> Hwf _ IH].
  - rewrite length_app. cbn. lia.
  - unfold wire_size in *. cbn [map snd]. unfold list_sum in *. cbn [fold_right].
    unfold wire. rewrite !length_app. cbn [length]. rewrite length_app. cbn [length]. lia.
Qed.

Lemma drain_log_carved (fuel : nat) :
  forall (log : list frame) (buffer : bytes) log' left,
    drain_with log_frame log_say fuel log buffer = Some (log', Ok left) ->
    exists new, log' = log ++ new /\ carved buffer new left.
Proof.
  induction fuel as [|fuel IH]; intros log buffer log' left; cbn [drain_with];
    [discriminate|].
  destruct (parse_frame_cases buffer) as (res & rest & out & -> & Hcase).
  destruct res as [[cmd frame_data]|].
  - intros H. apply IH in H as (new & -> & Hnew).
    exists ((cmd, frame_data) :: new). unfold log_say, log_frame.
    split; [now rewrite <- app_assoc|].
    inversion Hcase as [| | | | idx c lo hi data chk rest' Hf Hskip Hwf]; subst.
    eapply carved_cons with (pre := firstn idx buffer); [|exact Hwf | exact Hnew].
    now rewrite <- Hskip, firstn_skipn.
  - intros [= <- <-]. exists []. unfold log_say. split; [now rewrite app_nil_r|].
    destruct (parse_case_suffix _ _ _ _ Hcase) as [consumed ->].
    now apply carved_nil with (pre := consumed).
Qed.

Lemma rx_log_carved (reads : list read_outcome) :
  forall (log : list frame) (seen buffer : bytes) log',
    carved seen log buffer ->
    rx_loop_with log_frame log_say log buffer reads = Some log' ->
    exists left, carved (seen ++ stream reads) log' left.
Proof.
  induction reads as [|[data|still_running] reads IH];
    intros log seen buffer log' Hinv; cbn [rx_loop_with stream].
  - intros [= <-]. rewrite app_nil_r. eauto.
  - destruct data as [|x data]; [now apply IH|].
    destruct (drain_with_terminates log_frame log_say
                (length (buffer ++ x :: data) / 6 + 1) log (buffer ++ x :: data))
      as (log1 & left & Hdrain & _); [lia|].
    rewrite Hdrain.
    apply drain_log_carved in Hdrain as (new & -> & Hnew).
    intros H. rewrite app_assoc. eapply IH; [|exact H].
    eapply carved_then; [apply carved_extend; exact Hinv | exact Hnew].
  - intros H. rewrite app_nil_r. exists buffer.
    destruct still_running; injection H as <-; exact Hinv.
Qed.

(** X8: the frames the receive loop dispatches lie in the byte stream in
    the order of their dispatch, one after the other without overlap, each
    with a right length field and checksum: no frame is dispatched twice or
    out of order, and together they take no more bytes than were read. *)
Theorem rx_loop_dispatches_in_order :
  forall (reads : list read_outcome) (fs : list frame),
    rx_dispatched reads = Some fs ->
    (exists left, carved (stream reads) fs left) /\
    wire_size fs <= length (stream reads).
Proof.
  intros reads fs Hrx. unfold rx_dispatched in Hrx.
  destruct (rx_log_carved reads [] [] [] fs) as [left Hc];
    [now apply carved_nil with (pre := []) | exact Hrx |].
  cbn [app] in Hc. split; [eauto|].
  apply carved_size in Hc. lia.
Qed.

Lemma rx_loop_dispatches_in_order_witness :
  (exists left,
      carved (stream [ReadData [x00; xaa; x55; x03]; ReadData [x01; x00; x10; x12; x09]])
             [(3%N, [x10])] left) /\
  wire_size [(3%N, [x10])]
  <= length (stream [ReadData [x00; xaa; x55; x03]; ReadData [x01; x00; x10; x12; x09]]).
Proof.
  apply (rx_loop_dispatches_in_order
           [ReadData [x00; xaa; x55; x03]; ReadData [x01; x00; x10; x12; x09]]).
  reflexivity.
Defined.

(** ** Where the receive loop stops *)

Lemma rx_loop_with_fail {T : Type}
    (handle : T -> N -> bytes -> T) (say : T -> list message -> T)
    (chunks : list bytes) (still_running : bool) (later : list read_outcome) :
  forall (self : T) (buffer : bytes),
    rx_loop_with handle say self buffer
      (map ReadData chunks ++ ReadFail still_running :: later)
    = option_map (fun t => if still_running then say t [MsgRxError] else t)
        (rx_loop_with handle say self buffer (map ReadData chunks)).
Proof.
  induction chunks as [|d chunks IH]; intros self buffer; cbn [map app rx_loop_with].
  - reflexivity.
  - destruct d as [|x d]; [apply IH|].
    destruct (drain_with_terminates handle say
                (length (buffer ++ x :: d) / 6 + 1) self (buffer ++ x :: d))
      as (self1 & left & -> & _); [lia|].
    apply IH.
Qed.

(** X9: an exception from the port ends the receive loop: whatever was read
    before it is handled as usual, nothing read after it is, and the error
    line is printed only when the session is still marked running. *)
Theorem rx_loop_stops_at_read_failure :
  forall (chunks : list bytes) (still_running : bool) (later : list read_outcome)
         (self : tool),
    rx_dispatched (map ReadData chunks ++ ReadFail still_running :: later)
    = rx_dispatched (map ReadData chunks) /\
    exists self1,
      rx_loop self (map ReadData chunks) = Some self1 /\
      rx_loop self (map ReadData chunks ++ ReadFail still_running :: later)
      = Some (if still_running then emit self1 [Print MsgRxError] else self1).
Proof.
  intros chunks still_running later self. split.
  - unfold rx_dispatched. rewrite rx_loop_with_fail.
    destruct (rx_loop_with log_frame log_say [] [] (map ReadData chunks));
      [|reflexivity].
    now destruct still_running.
  - destruct (rx_loop_total self (map ReadData chunks)) as [self1 H1].
    exists self1. split; [exact H1|].
    unfold rx_loop in *. now rewrite rx_loop_with_fail, H1.
Qed.

(** X10: a checksum error ends the handling of one read: when the first
    header of what was read starts a complete frame with a wrong checksum
    byte, the loop prints the error, dispatches nothing and goes back to
    reading, whatever stands behind that frame in the buffer. *)
Theorem rx_loop_stops_at_bad_checksum :
  forall (self : tool) (buffer : bytes) idx c lo hi data chk rest,
    Py.find buffer FRAME_HEADER = Some idx ->
    skipn idx buffer = wire c lo hi data chk ++ rest ->
    length data = announced lo hi ->
    Byte.to_N chk <> calc_checksum (c :: lo :: hi :: data) ->
    rx_dispatched [ReadData buffer] = Some [] /\
    rx_loop self [ReadData buffer]
    = Some (emit self [Print (MsgChecksumError
                                (calc_checksum (c :: lo :: hi :: data))
                                (Byte.to_N chk))]).
Proof.
  intros self buffer idx c lo hi data chk rest Hfind Hskip Hlen Hchk.
  assert (Hparse : parse_frame buffer
                   = Ok (None, skipn (idx + 2) buffer,
                         [MsgChecksumError (calc_checksum (c :: lo :: hi :: data))
                                           (Byte.to_N chk)])).
  { rewrite (parse_frame_whole _ _ _ _ _ _ _ _ Hfind Hskip Hlen).
    destruct (N.eqb_spec (Byte.to_N chk) (calc_checksum (c :: lo :: hi :: data)));
      [contradiction | reflexivity]. }
  destruct buffer as [|x buffer].
  { rewrite skipn_nil in Hskip. discriminate. }
  unfold rx_dispatched, rx_loop. cbn [rx_loop_with app].
  replace (length (x :: buffer) / 6 + 1) with (S (length (x :: buffer) / 6)) by lia.
  cbn [drain_with]. rewrite Hparse. split; reflexivity.
Qed.

Lemma rx_loop_stops_at_bad_checksum_witness :
  rx_dispatched [ReadData [xaa; x55; x03; x01; x00; x10; xff;
                           xaa; x55; x06; x00; x00; x06]] = Some [] /\
  rx_loop (mkTool (Some []) true [] [])
          [ReadData [xaa; x55; x03; x01; x00; x10; xff;
                     xaa; x55; x06; x00; x00; x06]]
  = Some (emit (mkTool (Some []) true [] [])
               [Print (MsgChecksumError (calc_checksum [x03; x01; x00; x10])
                                        (Byte.to_N xff))]).
Proof.
  apply (rx_loop_stops_at_bad_checksum (mkTool (Some []) true [] [])
           [xaa; x55; x03; x01; x00; x10; xff; xaa; x55; x06; x00; x00; x06]
           0 x03 x01 x00 [x10] xff [xaa; x55; x06; x00; x00; x06]).
  - reflexivity.
  - reflexivity.
  - reflexivity.
  - vm_compute. discriminate.
Defined.

(** X11: the receive loop only reads: it always comes to an end, leaves the
    port and the running flag as they were, only appends to the audio
    accumulator and to the console, and writes no file. *)
Theorem rx_loop_only_receives :
  forall (self : tool) (reads : list read_outcome),
    exists self' more new,
      rx_loop self reads = Some self' /\
      serial self' = serial self /\
      running self' = running self /\
      audio_data self' = audio_data self ++ more /\
      effects self' = effects self ++ new /\
      filter is_wav_write new = [].
Proof.
  intros self reads.
  destruct (rx_loop_total self reads) as [self' Hrx].
  destruct (rx_loop_frame _ _ _ Hrx) as (Hs & Hr & new & He & Hnew).
  destruct (rx_loop_audio_data _ _ _ Hrx) as (frames & _ & Ha).
  exists self', (concat (map audio_payload frames)), new.
  repeat split; try assumption.
  now apply filter_rx_effects.
Qed.

(** * Further properties of the operations *)


(** X14: for a source that is not MP3 whose frame rate, channel count or
    sample width is zero, the division of the duration line raises
    [ZeroDivisionError], and that is the outcome of [play_audio], whatever
    the state of the port and whatever the device would answer. *)
Theorem play_audio_divides_by_zero :
  forall (self : tool) (filename : string) (frames : bytes)
         (framerate sample_width channels audio_format : N)
         (reads : list read_outcome),
    audio_format <> AUDIO_FORMAT_MP3 ->
    (framerate * channels * sample_width)%N = 0%N ->
    true_div (length frames) (framerate * channels * sample_width)%N
    = Raise ZeroDivisionError /\
    play_audio self filename
      (Some (frames, framerate, sample_width, channels, audio_format)) reads
    = Some (Raise ZeroDivisionError).
Proof.
  intros self filename frames framerate sample_width channels audio_format reads
         Hfmt Hzero.
  assert (Hdiv : true_div (length frames) (framerate * channels * sample_width)%N
                 = Raise ZeroDivisionError)
    by (unfold true_div; now rewrite Hzero).
  split; [exact Hdiv|].
  unfold play_audio.
  destruct (N.eqb_spec audio_format AUDIO_FORMAT_MP3) as [E|_]; [contradiction|].
  now rewrite Hdiv.
Qed.

Lemma play_audio_divides_by_zero_witness :
  true_div (length [x01; x02]) (0 * 1 * 2)%N = Raise ZeroDivisionError /\
  play_audio (mkTool (Some []) false [] []) "sound.wav"
    (Some ([x01; x02], 0%N, 2%N, 1%N, AUDIO_FORMAT_PCM)) []
  = Some (Raise ZeroDivisionError).
Proof.
  apply (play_audio_divides_by_zero (mkTool (Some []) false [] []) "sound.wav"
           [x01; x02] 0%N 2%N 1%N AUDIO_FORMAT_PCM []).
  - discriminate.
  - reflexivity.
Defined.

(** ** What is played can be received *)

(** The frames [play_audio] sends for a source, in order. *)
Lemma total_sleep_app (a b : list event) :
  total_sleep (a ++ b) = (total_sleep a + total_sleep b)%N.
Proof.
  induction a as [|e a IH]; [reflexivity|].
  destruct e; cbn [app total_sleep]; rewrite IH; lia.
Qed.

Lemma send_frame_effects (self self2 : tool) (cmd : N) (data : bytes) (sent : bool) :
  send_frame self cmd data = Ok (sent, self2) -> effects self2 = effects self.
Proof.
  unfold send_frame. destruct (serial self); [|now intros [= _ <-]].
  destruct (build_frame cmd data); cbn [bind]; [|discriminate].
  now intros [= _ <-].
Qed.

Lemma for_each_send_chunk_sleep (frames : bytes) (size total : nat) (mp3 : bool)
    (indices : list nat) :
  forall self self',
    for_each (send_chunk frames size total mp3) indices self = Ok self' ->
    total_sleep (effects self')
    = (total_sleep (effects self)
       + N.of_nat (length indices) * (if mp3 then 10 else 20))%N.
Proof.
  induction indices as [|i indices IH]; intros self self'; cbn [for_each].
  - intros [= <-]. cbn [length]. lia.
  - unfold send_chunk at 1.
    destruct (send_frame self CMD_AUDIO_DATA (Py.slice frames i (i + size)))
      as [[sent self1]|e] eqn:Hsend; cbn [bind snd]; [|discriminate].
    intros H. apply IH in H. rewrite H. cbn [effects emit].
    rewrite total_sleep_app, (send_frame_effects _ _ _ _ _ Hsend).
    cbn [total_sleep length]. destruct mp3; lia.
Qed.

Lemma rx_loop_sleeps_not (self self' : tool) (reads : list read_outcome) :
  rx_loop self reads = Some self' ->
  total_sleep (effects self') = total_sleep (effects self).
Proof.
  apply (rx_loop_with_invariant handle_frame say_tool
           (fun t => total_sleep (effects t) = total_sleep (effects self))).
  - intros t cmd data Ht. unfold handle_frame.
    destruct (N.eqb cmd CMD_AUDIO_DATA); [|destruct (N.eqb cmd CMD_ACK); [destruct data|]];
      cbn [effects emit set_audio_data]; rewrite ?total_sleep_app; cbn [total_sleep];
      rewrite ?N.add_0_r; exact Ht.
  - intros t out _ Ht. unfold say_tool. cbn [effects emit].
    rewrite total_sleep_app, Ht.
    assert (E : total_sleep (map Print out) = 0%N)
      by (clear; induction out; [reflexivity | assumption]).
    rewrite E. lia.
  - reflexivity.
Qed.

Lemma play_audio_writes (self : tool) (filename : string) (frames : bytes)
    (framerate sample_width channels audio_format : N)
    (reads : list read_outcome) (written : list bytes) :
  serial self = Some written ->
  audio_format = AUDIO_FORMAT_MP3 \/
  (audio_format = AUDIO_FORMAT_PCM /\ (framerate * channels * sample_width)%N <> 0%N) ->
  exists self' fmt goods,
    play_audio self filename
      (Some (frames, framerate, sample_width, channels, audio_format)) reads
    = Some (Ok self') /\
    serial self' = Some (written ++ goods) /\
    running self' = false /\
    Byte.to_N fmt = audio_format /\
    Forall2 encodes
      ((CMD_SET_FORMAT, [fmt]) :: (CMD_START_PLAY, [])
       :: map (fun chunk => (CMD_AUDIO_DATA, chunk))
              (chunks frames (if N.eqb audio_format AUDIO_FORMAT_MP3 then 1024 else 512))
       ++ [(CMD_STOP_PLAY, [])])
      goods /\
    total_sleep (effects self')
    = (total_sleep (effects self) + 1200
       + N.of_nat (length (chunks frames
                             (if N.eqb audio_format AUDIO_FORMAT_MP3 then 1024 else 512)))
         * (if N.eqb audio_format AUDIO_FORMAT_MP3 then 10 else 20))%N.
Proof.
  intros Hs Hfmt.
  set (chunk_size := if N.eqb audio_format AUDIO_FORMAT_MP3 then 1024 else 512).
  unfold play_audio. fold chunk_size.
  set (mp3 := N.eqb audio_format AUDIO_FORMAT_MP3) in *.
  assert (Hsize : 0 < chunk_size <= 1024) by (unfold chunk_size; destruct mp3; lia).
  set (self0 := emit self [Print (MsgPlayFile filename)]).
  match goal with
  | |- context [call ?info] =>
      assert (Hinfo : exists es, info = Ok (emit self0 es) /\ total_sleep es = 0%N);
      [|destruct Hinfo as (es & -> & Hes)]
  end.
  { destruct Hfmt as [->|[-> Hrate]].
    - eexists. split; reflexivity.
    - change (N.eqb AUDIO_FORMAT_PCM AUDIO_FORMAT_MP3) with false in mp3.
      unfold mp3, true_div.
      destruct (N.eqb_spec (framerate * channels * sample_width) 0) as [E|_];
        [contradiction|].
      cbn [bind fst snd]. eexists. unfold emit. cbn [serial running audio_data effects].
      rewrite <- app_assoc. split; reflexivity. }
  cbn [call run_bind].
  assert (Hbyte : exists fmt, Py.bytes1 audio_format = Ok [fmt] /\ Byte.to_N fmt = audio_format).
  { destruct (of_N_some audio_format) as (fmt & E & Hfmt').
    - destruct Hfmt as [->|[-> _]]; reflexivity.
    - exists fmt. unfold Py.bytes1. now rewrite E. }
  destruct Hbyte as (fmt & -> & Hfmtb). cbn [call run_bind].
  set (self1 := emit (set_running (emit self0 es) true) [Print (MsgSetFormat mp3)]).
  destruct (send_frame_ok self1 CMD_SET_FORMAT [fmt])
    as (b1 & self2 & -> & _ & _ & He2 & _ & Hw1); [reflexivity | cbn [length]; lia |].
  destruct (Hw1 written Hs) as (set_format & Hset & Hs2). cbn [run_bind snd].
  destruct (send_frame_ok (emit self2 [Sleep 200]) CMD_START_PLAY [])
    as (b2 & self3 & -> & _ & _ & He3 & _ & Hw2); [reflexivity | cbn [length]; lia |].
  destruct (Hw2 _ Hs2) as (start & Hstart & Hs3). cbn [run_bind snd].
  destruct (for_each_send_chunk frames chunk_size
              ((length frames + chunk_size - 1) / chunk_size) mp3 (proj2 Hsize)
              (Py.range_step (length frames) chunk_size)
              (emit (emit self3 [Sleep 500]) [Print MsgSending])
              ((written ++ [set_format]) ++ [start]) Hs3)
    as (self4 & sent & Hloop & Hs4 & _ & _ & Hall).
  pose proof (for_each_send_chunk_sleep _ _ _ _ _ _ _ Hloop) as He4.
  rewrite Hloop. cbn [run_bind].
  destruct (send_frame_ok (emit self4 [Print MsgSendDone; Sleep 500]) CMD_STOP_PLAY [])
    as (b3 & self5 & -> & _ & _ & He5 & _ & Hw3); [reflexivity | cbn [length]; lia |].
  destruct (Hw3 _ Hs4) as (stop & Hstop & Hs5). cbn [run_bind snd].
  destruct (rx_loop_total (set_running self5 false) reads) as [self6 Hrx].
  rewrite Hrx. cbn [join option_map].
  destruct (rx_loop_frame _ _ _ Hrx) as (Hs6 & Hr6 & _).
  pose proof (rx_loop_sleeps_not _ _ _ Hrx) as He6.
  exists self6, fmt, (set_format :: start :: sent ++ [stop]).
  split; [reflexivity|].
  split; [rewrite Hs6; cbn [serial set_running]; rewrite Hs5;
          rewrite <- !app_assoc; reflexivity|].
  split; [now rewrite Hr6|]. split; [exact Hfmtb|].
  split.
  { constructor; [exact Hset|]. constructor; [exact Hstart|].
    apply Forall2_app; [|now repeat constructor].
    clear - Hall. fold (chunks frames chunk_size) in Hall.
    induction Hall as [|chunk w cs ws Hw _ IH]; cbn [map]; constructor; assumption. }
  rewrite He6. cbn [effects set_running]. rewrite He5. cbn [effects emit].
  rewrite !total_sleep_app, He4. cbn [effects emit]. rewrite !total_sleep_app, He3.
  cbn [effects emit]. rewrite !total_sleep_app, He2. unfold self1, self0.
  cbn [effects emit set_running]. rewrite !total_sleep_app, Hes.
  unfold chunks. rewrite length_map. cbn [total_sleep].
  destruct mp3; lia.
Qed.

Lemma audio_payload_chunks (cs : list bytes) :
  concat (map audio_payload (map (fun chunk => (CMD_AUDIO_DATA, chunk)) cs))
  = concat cs.
Proof. induction cs as [|c cs IH]; [reflexivity|]. cbn [map concat]. now rewrite IH. Qed.

(** X15: what [play_audio] writes can be received back with the tool's own
    receive loop: a receiver fed the bytes written, cut into reads in any
    way, is handed the set-format frame, the start-play frame, one
    audio-data frame per chunk and the stop-play frame, and its accumulator
    grows by exactly the source audio bytes. *)
Theorem play_audio_is_received :
  forall (self : tool) (filename : string) (frames : bytes)
         (framerate sample_width channels audio_format : N)
         (reads : list read_outcome) (written : list bytes),
    serial self = Some written ->
    audio_format = AUDIO_FORMAT_MP3 \/
    (audio_format = AUDIO_FORMAT_PCM /\
     (framerate * channels * sample_width)%N <> 0%N) ->
    exists self' fmt goods,
      play_audio self filename
        (Some (frames, framerate, sample_width, channels, audio_format)) reads
      = Some (Ok self') /\
      serial self' = Some (written ++ goods) /\
      Byte.to_N fmt = audio_format /\
      forall (cuts : list bytes) (receiver : tool),
        concat cuts = concat goods ->
        rx_dispatched (map ReadData cuts)
        = Some ((CMD_SET_FORMAT, [fmt]) :: (CMD_START_PLAY, [])
                :: map (fun chunk => (CMD_AUDIO_DATA, chunk))
                       (chunks frames
                          (if N.eqb audio_format AUDIO_FORMAT_MP3 then 1024 else 512))
                ++ [(CMD_STOP_PLAY, [])]) /\
        exists receiver',
          rx_loop receiver (map ReadData cuts) = Some receiver' /\
          audio_data receiver' = audio_data receiver ++ frames.
Proof.
  intros self filename frames framerate sample_width channels audio_format
         reads written Hs Hfmt.
  destruct (play_audio_writes self filename frames framerate sample_width channels
              audio_format reads written Hs Hfmt)
    as (self' & fmt & goods & Hplay & Hs' & _ & Hfmtb & Hall & _).
  exists self', fmt, goods. do 3 (split; [assumption|]).
  intros cuts receiver Hcuts.
  assert (Hrx : rx_dispatched (map ReadData cuts) = Some
            ((CMD_SET_FORMAT, [fmt]) :: (CMD_START_PLAY, [])
             :: map (fun chunk => (CMD_AUDIO_DATA, chunk))
                    (chunks frames
                       (if N.eqb audio_format AUDIO_FORMAT_MP3 then 1024 else 512))
             ++ [(CMD_STOP_PLAY, [])])).
  { unfold rx_dispatched.
    apply (rx_clean cuts [] [] _ goods Hall); [exact Hcuts | now left]. }
  split; [exact Hrx|].
  destruct (rx_loop_total receiver (map ReadData cuts)) as [receiver' Hrec].
  exists receiver'. split; [exact Hrec|].
  destruct (rx_loop_audio_data _ _ _ Hrec) as (fs & Hfs & Hacc).
  rewrite Hrx in Hfs. injection Hfs as <-. rewrite Hacc. f_equal.
  cbn [map concat]. unfold audio_payload at 1 2. cbn [fst snd N.eqb CMD_SET_FORMAT
    CMD_START_PLAY CMD_AUDIO_DATA Pos.eqb app].
  rewrite map_app, concat_app, audio_payload_chunks. cbn [map concat].
  unfold audio_payload. cbn [fst snd N.eqb CMD_STOP_PLAY CMD_AUDIO_DATA Pos.eqb app].
  rewrite app_nil_r. apply concat_chunks. destruct (N.eqb audio_format AUDIO_FORMAT_MP3); lia.
Qed.

Lemma play_audio_is_received_witness :
  exists self' goods,
    play_audio (mkTool (Some []) false [] []) "sound.mp3"
      (Some (repeat x07 1500, 0%N, 0%N, 0%N, AUDIO_FORMAT_MP3)) [] = Some (Ok self') /\
    serial self' = Some ([] ++ goods) /\
    exists receiver',
      rx_loop (mkTool None true [] []) (map ReadData [concat goods]) = Some receiver' /\
      audio_data receiver' = [] ++ repeat x07 1500.
Proof.
  destruct (play_audio_is_received (mkTool (Some []) false [] []) "sound.mp3"
              (repeat x07 1500) 0 0 0 AUDIO_FORMAT_MP3 [] [])
    as (self' & fmt & goods & Hplay & Hs & _ & Hrec).
  - reflexivity.
  - left. reflexivity.
  - exists self', goods. split; [exact Hplay|]. split; [exact Hs|].
    destruct (Hrec [concat goods] (mkTool None true [] [])) as [_ H].
    + cbn [concat]. apply app_nil_r.
    + exact H.
Defined.

(** X16: playing takes at least the pacing delays: the sleeps of
    [play_audio] add up to 1200 ms for the control frames plus 20 ms (PCM)
    or 10 ms (MP3) for every chunk sent. *)
Theorem play_audio_pacing :
  forall (self : tool) (filename : string) (frames : bytes)
         (framerate sample_width channels audio_format : N)
         (reads : list read_outcome) (written : list bytes),
    serial self = Some written ->
    audio_format = AUDIO_FORMAT_MP3 \/
    (audio_format = AUDIO_FORMAT_PCM /\
     (framerate * channels * sample_width)%N <> 0%N) ->
    let mp3 := N.eqb audio_format AUDIO_FORMAT_MP3 in
    let chunk_size := if mp3 then 1024 else 512 in
    exists self',
      play_audio self filename
        (Some (frames, framerate, sample_width, channels, audio_format)) reads
      = Some (Ok self') /\
      running self' = false /\
      total_sleep (effects self')
      = (total_sleep (effects self) + 1200
         + N.of_nat ((length frames + chunk_size - 1) / chunk_size)
           * (if mp3 then 10 else 20))%N.
Proof.
  intros self filename frames framerate sample_width channels audio_format
         reads written Hs Hfmt mp3 chunk_size.
  destruct (play_audio_writes self filename frames framerate sample_width channels
              audio_format reads written Hs Hfmt)
    as (self' & fmt & goods & Hplay & _ & Hr & _ & _ & Hsleep).
  exists self'. split; [exact Hplay|]. split; [exact Hr|].
  rewrite Hsleep. fold mp3. fold chunk_size. now rewrite length_chunks.
Qed.

Lemma play_audio_pacing_witness :
  exists self',
    play_audio (mkTool (Some []) false [] []) "sound.wav"
      (Some (repeat x00 2049, 8000%N, 2%N, 1%N, AUDIO_FORMAT_PCM)) [] = Some (Ok self') /\
    running self' = false /\
    total_sleep (effects self') = 1300%N.
Proof.
  destruct (play_audio_pacing (mkTool (Some []) false [] []) "sound.wav"
              (repeat x00 2049) 8000 2 1 AUDIO_FORMAT_PCM [] [])
    as (self' & Hplay & Hr & Hsleep).
  - reflexivity.
  - right. split; [reflexivity | vm_compute; discriminate].
  - exists self'. split; [exact Hplay|]. split; [exact Hr|].
    rewrite Hsleep. vm_compute. reflexivity.
Defined.

(** ** Timeouts *)

Lemma rx_loop_with_skips_timeouts {T : Type}
    (handle : T -> N -> bytes -> T) (say : T -> list message -> T)
    (reads : list read_outcome) :
  forall (self : T) (buffer : bytes),
    rx_loop_with handle say self buffer reads
    = rx_loop_with handle say self buffer
        (filter (fun r => negb (is_timeout r)) reads).
Proof.
  induction reads as [|[data|still_running] reads IH]; intros self buffer;
    [reflexivity | | reflexivity].
  destruct data as [|x data]; cbn [filter is_timeout negb rx_loop_with]; [apply IH|].
  destruct (drain_with handle say _ self (buffer ++ x :: data)) as [[self1 [left|e]]|];
    [apply IH | reflexivity | reflexivity].
Qed.

(** X17: a read that times out changes nothing: the receive loop does not
    parse on it, so dropping the empty reads from its input leaves the frames
    dispatched and the final state as they are. *)
Theorem rx_loop_ignores_timeouts :
  forall (self : tool) (reads : list read_outcome),
    rx_loop self reads = rx_loop self (filter (fun r => negb (is_timeout r)) reads) /\
    rx_dispatched reads
    = rx_dispatched (filter (fun r => negb (is_timeout r)) reads).
Proof.
  intros self reads. split; apply rx_loop_with_skips_timeouts.
Qed.

(** ** Errors the checksum does not see *)

Lemma flip_bit_changes (k : nat) (b : byte) : k < 8 -> flip_bit k b <> b.
Proof.
  intros Hk E. apply (f_equal Byte.to_N) in E. rewrite to_N_flip_bit in E by assumption.
  now apply lxor_pow2_changes in E.
Qed.

Lemma nth_error_flip_at_same (i k : nat) (l : bytes) (x : byte) :
  nth_error l i = Some x -> nth_error (flip_at i k l) i = Some (flip_bit k x).
Proof.
  revert i. induction l as [|y l IH]; intros [|i]; cbn [nth_error flip_at];
    try discriminate.
  - now intros [= ->].
  - apply IH.
Qed.

Lemma nth_error_flip_at_other (i j k : nat) (l : bytes) :
  i <> j -> nth_error (flip_at j k l) i = nth_error l i.
Proof.
  revert i j. induction l as [|y l IH]; intros [|i] [|j] Hij;
    cbn [nth_error flip_at]; try reflexivity; try lia.
  apply IH. lia.
Qed.

(** X18: two errors in the same bit position cancel in the checksum: an
    encoded frame in which one bit position is flipped in two different
    payload bytes is accepted by the parser, with a payload that differs
    from the one sent. *)
Theorem parse_frame_accepts_double_flip :
  forall (cmd : N) (payload good trailing : bytes) (i j k : nat),
    build_frame cmd payload = Ok good ->
    i < length payload -> j < length payload -> i <> j -> k < 8 ->
    let damaged := flip_at i k (flip_at j k payload) in
    damaged <> payload /\
    exists c lo hi chk,
      good = wire c lo hi payload chk /\
      parse_frame (wire c lo hi damaged chk ++ trailing)
      = Ok (Some (cmd, damaged), trailing, []).
Proof.
  intros cmd payload good trailing i j k Hgood Hi Hj Hij Hk damaged.
  split.
  - intros E. apply (f_equal (fun l => nth_error l i)) in E. unfold damaged in E.
    destruct (nth_error payload i) as [x|] eqn:Hx.
    + rewrite (nth_error_flip_at_same i k _ x) in E
        by (now rewrite nth_error_flip_at_other).
      injection E as E. now apply flip_bit_changes in E.
    + apply nth_error_None in Hx. lia.
  - destruct (build_frame_inv _ _ _ Hgood) as (c & lo & hi & chk & -> & <- & Hlen & Hchk).
    exists c, lo, hi, chk. split; [reflexivity|].
    rewrite (parse_frame_whole (wire c lo hi damaged chk ++ trailing) 0
               c lo hi damaged chk trailing).
    + assert (E : calc_checksum (c :: lo :: hi :: damaged)
                  = calc_checksum (c :: lo :: hi :: payload)).
      { rewrite !calc_checksum_cons. do 3 f_equal. unfold damaged.
        rewrite !calc_checksum_flip_at by (rewrite ?length_flip_at; assumption).
        now rewrite N.lxor_assoc, N.lxor_nilpotent, N.lxor_0_r. }
      rewrite E, Hchk. now rewrite N.eqb_refl.
    + apply (find_at_start FRAME_HEADER).
    + reflexivity.
    + unfold damaged. now rewrite !length_flip_at.
Qed.

Lemma parse_frame_accepts_double_flip_witness :
  let damaged := flip_at 0 4 (flip_at 1 4 [x10; x20]) in
  damaged <> [x10; x20] /\
  exists c lo hi chk,
    [xaa; x55; x03; x02; x00; x10; x20; x31] = wire c lo hi [x10; x20] chk /\
    parse_frame (wire c lo hi damaged chk ++ []) = Ok (Some (3%N, damaged), [], []).
Proof.
  apply (parse_frame_accepts_double_flip 3 [x10; x20]
           [xaa; x55; x03; x02; x00; x10; x20; x31] [] 0 1 4).
  - reflexivity.
  - cbn [length]. lia.
  - cbn [length]. lia.
  - lia.
  - lia.
Defined.

(** * Resynchronisation after a bad checksum *)

Lemma parse_frame_quiet (buffer rest : bytes) :
  parse_frame buffer = Ok (None, rest, []) ->
  parse_frame rest = Ok (None, rest, []).
Proof.
  intros H. apply parse_frame_inv in H.
  inversion H as [Hf | idx Hf Hshort | idx c lo hi tl Hf Hskip Hinc | |]; subst.
  - assert (Hlen : length (Py.slice_last buffer) < 2).
    { unfold Py.slice_last. rewrite length_skipn. lia. }
    unfold parse_frame. rewrite (find_short _ Hlen).
    destruct (Py.slice_last buffer) as [|x [|y l]]; cbn in Hlen; try lia; reflexivity.
  - destruct (find_some _ _ _ Hf) as (_ & tl0 & Hskip).
    apply (parse_frame_short _ 0); [|exact Hshort].
    rewrite Hskip. apply find_at_start.
  - apply (parse_frame_incomplete _ 0 c lo hi tl); [|exact Hskip | exact Hinc].
    rewrite Hskip. apply (find_at_start FRAME_HEADER).
Qed.

Lemma reparse_quiet (b : bytes) (f : frame) :
  parse_frame b = Ok (None, b, []) ->
  forall n, ~ In (Some f) (reparse n b).
Proof.
  intros Hb. induction n as [|n IH]; [intros []|].
  cbn [reparse]. rewrite Hb. intros [H|H]; [discriminate | auto].
Qed.

Lemma parse_frame_valid (buffer : bytes) idx c lo hi data chk rest :
  Py.find buffer FRAME_HEADER = Some idx ->
  skipn idx buffer = wire c lo hi data chk ++ rest ->
  well_formed c lo hi data chk ->
  parse_frame buffer = Ok (Some (Byte.to_N c, data), rest, []).
Proof.
  intros Hfind Hskip [Hlen Hchk].
  rewrite (parse_frame_whole _ _ _ _ _ _ _ _ Hfind Hskip Hlen), Hchk.
  now rewrite N.eqb_refl.
Qed.

Lemma parse_frame_corrupt (buffer : bytes) idx c lo hi data chk rest :
  Py.find buffer FRAME_HEADER = Some idx ->
  skipn idx buffer = wire c lo hi data chk ++ rest ->
  length data = announced lo hi ->
  Byte.to_N chk <> calc_checksum (c :: lo :: hi :: data) ->
  parse_frame buffer
  = Ok (None, skipn (idx + 2) buffer,
        [MsgChecksumError (calc_checksum (c :: lo :: hi :: data)) (Byte.to_N chk)]).
Proof.
  intros Hfind Hskip Hlen Hchk.
  rewrite (parse_frame_whole _ _ _ _ _ _ _ _ Hfind Hskip Hlen).
  destruct (N.eqb_spec (Byte.to_N chk) (calc_checksum (c :: lo :: hi :: data)));
    [contradiction | reflexivity].
Qed.

(** A frame that is reached is yielded at the call that reaches it. *)
Lemma reaches_sound (f : frame) (post : bytes) (n : nat) (buffer : bytes) :
  reaches f post n buffer ->
  nth_error (reparse (S n) buffer) n = Some (Some f).
Proof.
  induction 1 as [buffer idx c lo hi data chk Hfind Hskip Hwf ->
                 |n buffer idx c lo hi data chk rest Hfind Hskip Hlen Hchk _ IH
                 |n buffer idx c lo hi data chk rest Hfind Hskip Hwf _ IH].
  - cbn [reparse]. now rewrite (parse_frame_valid _ _ _ _ _ _ _ _ Hfind Hskip Hwf).
  - change (reparse (S (S n)) buffer)
      with (match parse_frame buffer with
            | Ok (res, rest, _) => res :: reparse (S n) rest
            | Raise _ => []
            end).
    rewrite (parse_frame_corrupt _ _ _ _ _ _ _ _ Hfind Hskip Hlen Hchk). exact IH.
  - change (reparse (S (S n)) buffer)
      with (match parse_frame buffer with
            | Ok (res, rest, _) => res :: reparse (S n) rest
            | Raise _ => []
            end).
    rewrite (parse_frame_valid _ _ _ _ _ _ _ _ Hfind Hskip Hwf). exact IH.
Qed.

(** A frame that some call yields is reached. *)
Lemma reaches_complete (f : frame) (n : nat) :
  forall buffer,
    In (Some f) (reparse n buffer) ->
    exists m post, m < n /\ reaches f post m buffer.
Proof.
  induction n as [|n IH]; intros buffer; [intros []|].
  cbn [reparse].
  destruct (parse_frame_cases buffer) as (res & rest & out & Hparse & Hcase).
  rewrite Hparse. intros [Hres|Hin].
  - subst res.
    inversion Hcase as [| | | | idx c lo hi data chk rest' Hf Hskip Hwf]; subst.
    exists 0, rest. split; [lia|]. eapply reaches_now; eauto.
  - inversion Hcase as [Hf | idx Hf Hshort | idx c lo hi tl Hf Hskip Hinc
                       | idx c lo hi data chk rest' Hf Hskip Hlen Hchk
                       | idx c lo hi data chk rest' Hf Hskip Hwf]; subst.
    + exfalso. eapply reparse_quiet; [|exact Hin].
      eapply parse_frame_quiet. exact Hparse.
    + exfalso. eapply reparse_quiet; [|exact Hin].
      eapply parse_frame_quiet. exact Hparse.
    + exfalso. eapply reparse_quiet; [|exact Hin].
      eapply parse_frame_quiet. exact Hparse.
    + destruct (IH _ Hin) as (m & post & Hm & Hreach).
      exists (S m), post. split; [lia|]. eapply reaches_past_corrupt; eauto.
    + destruct (IH _ Hin) as (m & post & Hm & Hreach).
      exists (S m), post. split; [lia|]. eapply reaches_past_frame; eauto.
Qed.

(** C2, as the code has it: when the first header starts a complete frame
    whose checksum byte is not the XOR of command, length bytes and payload,
    [parse_frame] reports no frame and returns the buffer from two bytes
    past the position of that header, a strictly shorter buffer.  The calls
    that follow yield a frame exactly when it is reached: every header
    marker met on the way starts a frame that is complete in the buffer (a
    wrong checksum costs a call and two bytes, a matching one yields that
    frame), and the frame's header is the first marker in what is then left;
    the call that reaches it yields it.  A marker that announces more bytes
    than the buffer holds is not passed. *)
Theorem parse_frame_bad_checksum :
  forall buffer idx c lo hi data chk rest,
    Py.find buffer FRAME_HEADER = Some idx ->
    skipn idx buffer = wire c lo hi data chk ++ rest ->
    length data = announced lo hi ->
    Byte.to_N chk <> calc_checksum (c :: lo :: hi :: data) ->
    let remaining := skipn (idx + 2) buffer in
    parse_frame buffer
    = Ok (None, remaining,
          [MsgChecksumError (calc_checksum (c :: lo :: hi :: data)) (Byte.to_N chk)]) /\
    length remaining < length buffer /\
    (forall f,
        (exists n, In (Some f) (reparse n remaining)) <->
        (exists m post, reaches f post m remaining)) /\
    (forall f post m,
        reaches f post m remaining ->
        nth_error (reparse (S m) remaining) m = Some (Some f)) /\
    (forall k cmd payload good post,
        build_frame cmd payload = Ok good ->
        Py.find remaining FRAME_HEADER = Some k ->
        skipn k remaining = good ++ post ->
        parse_frame remaining = Ok (Some (cmd, payload), post, [])).
Proof.
  intros buffer idx c lo hi data chk rest Hfind Hskip Hlen Hchk remaining.
  split; [now apply (parse_frame_corrupt _ _ _ _ _ _ _ _ Hfind Hskip Hlen Hchk)|].
  split.
  { unfold remaining. rewrite length_skipn.
    assert (H : length (skipn idx buffer) >= 6)
      by (rewrite Hskip; unfold wire; cbn; rewrite !length_app; cbn; lia).
    rewrite length_skipn in H. lia. }
  split.
  { intros f. split.
    - intros [n Hn]. destruct (reaches_complete f n _ Hn) as (m & post & _ & H). eauto.
    - intros (m & post & H). exists (S m).
      apply nth_error_In with (n := m). exact (reaches_sound _ _ _ _ H). }
  split.
  { intros f post m H. exact (reaches_sound _ _ _ _ H). }
  intros k cmd payload good post Hgood Hk Hpost.
  eapply parse_frame_found; eassumption.
Qed.

Lemma parse_frame_bad_checksum_witness :
  let buffer := [xaa; x55; x01; x06; x00; xaa; x55; x09; x00; x00; xff; x00;
                 xaa; x55; x06; x00; x00; x06] in
  parse_frame buffer = Ok (None, skipn 2 buffer, [MsgChecksumError 14 0]) /\
  nth_error (reparse 2 (skipn 2 buffer)) 1 = Some (Some (CMD_HANDSHAKE, [])).
Proof.
  intros buffer.
  destruct (parse_frame_bad_checksum buffer 0 x01 x06 x00
              [xaa; x55; x09; x00; x00; xff] x00 [xaa; x55; x06; x00; x00; x06])
    as (Hparse & _ & _ & Hreach & _).
  - reflexivity.
  - reflexivity.
  - reflexivity.
  - vm_compute. discriminate.
  - split; [exact Hparse|].
    apply (Hreach (CMD_HANDSHAKE, []) [] 1).
    apply (reaches_past_corrupt _ _ _ _ 3 x09 x00 x00 [] xff
             [x00; xaa; x55; x06; x00; x00; x06]).
    + reflexivity.
    + reflexivity.
    + reflexivity.
    + vm_compute. discriminate.
    + apply (reaches_now _ _ _ 5 x06 x00 x00 [] x06).
      * reflexivity.
      * reflexivity.
      * split; reflexivity.
      * reflexivity.
Defined.

(** A marker inside the dropped frame that starts a complete frame with a
    wrong checksum is passed: the valid frame comes out of the third call. *)
Example resynchronises_on_third_call :
  reparse 3 [xaa; x55; x01; x06; x00; xaa; x55; x09; x00; x00; xff; x00;
             xaa; x55; x06; x00; x00; x06]
  = [None; None; Some (CMD_HANDSHAKE, [])].
Proof. reflexivity. Qed.

(** A marker inside the dropped frame whose frame happens to pass the
    checksum and runs over the header of the valid frame: the false frame
    is yielded and the valid one is lost. *)
Example false_frame_swallows_valid_frame :
  reparse 4 [xaa; x55; x01; x05; x00; xaa; x55; x07; x03; x00; xfd;
             xaa; x55; x06; x00; x00; x06]
  = [None; Some (7%N, [xfd; xaa; x55]); None; None].
Proof. reflexivity. Qed.

(** * What the computed checksum detects *)









(** It fails on the length bytes too: here the payload byte that leaves
    the range equals the flipped bit, the computed checksum stays 0x01 and
    the damaged frame is accepted. *)
Example length_bit_is_not_covered :
  build_frame 1 [x01] = Ok [xaa; x55; x01; x01; x00; x01; x01] /\
  computed_checksum [xaa; x55; x01; x01; x00; x01; x01] = Ok 1%N /\
  computed_checksum (flip_at 3 0 [xaa; x55; x01; x01; x00; x01; x01]) = Ok 1%N /\
  parse_frame (flip_at 3 0 [xaa; x55; x01; x01; x00; x01; x01])
  = Ok (Some (1%N, []), [x01], []).
Proof. repeat split. Qed.

(** * Recording and listening *)








(** A recording that receives an acknowledgment and nothing else. *)
Example start_record_without_audio :
  exists self',
    start_record 9223372036 (mkTool (Some []) false [] []) "recording.wav" 10 false
      [ReadData [xaa; x55; x07; x01; x00; x01; x07]] = Some (Returned self') /\
    audio_data self' = [] /\
    effects self'
    = [ Print (MsgRecordStart 10); Sleep 10000; Print MsgRecordStop; Sleep 500;
        Print (MsgAck 1); Print MsgNoAudioData ].
Proof. eexists. split; [reflexivity|]. split; reflexivity. Qed.

(** A recording that receives two audio-data frames. *)
Example start_record_with_audio :
  exists self',
    start_record 9223372036 (mkTool (Some []) false [] []) "recording.wav" 10 false
      [ ReadData [xaa; x55; x03; x02; x00; x10; x20; x31];
        ReadData [xaa; x55; x03; x01; x00; x07; x05] ] = Some (Returned self') /\
    audio_data self' = [x10; x20; x07] /\
    filter is_wav_write (effects self')
    = [WavWrite "recording.wav" 1 2 8000 [x10; x20; x07]].
Proof. eexists. split; [reflexivity|]. split; reflexivity. Qed.

(** A recording started with a negative duration: [time.sleep] raises after
    the start frame, the stop frame is not sent and the flag stays set. *)
Example start_record_negative_duration :
  start_record 9223372036 (mkTool (Some []) false [] []) "recording.wav" (-1) false []
  = Some (Raised ValueError
            (mkTool (Some [[xaa; x55; x01; x00; x00; x01]]) true []
                    [Print (MsgRecordStart (-1))])).
Proof. reflexivity. Qed.






Lemma listen_wait_stopped (fuel : nat) (self : tool) (interrupt : option nat) :
  running self = false ->
  listen_wait (S fuel) self interrupt = Some self.
Proof. intros Hr. cbn [listen_wait]. now rewrite Hr. Qed.



(** A listen operation interrupted after two sleeps. *)
Example listen_record_interrupted :
  exists self',
    listen_record 3 (mkTool (Some []) false [] []) "recording.wav" (Some 2) []
    = Some self' /\
    effects self'
    = [ Print MsgListen; Sleep 100; Sleep 100; Print MsgUserInterrupt;
        Print MsgNoAudioData ] /\
    serial self' = Some [] /\ running self' = false.
Proof. eexists. split; [reflexivity|]. repeat split. Qed.
